(** * PDF word-frequency analyzer: the normalization and classification core

    A shallow embedding of [main.py]: the Python string primitives the
    program calls, the tokenizer, the tag mapping, the normalizer, the
    vocabulary loader, the PDF driver and the classifier, followed by the
    properties of the specification that concern them.

    Python [str] values are modelled as [string]; a character is a code
    point of the first 256 (the ASCII and Latin-1 blocks), classified the
    way Python classifies it.  NLTK, pdfplumber, wordcloud and the file
    system are capabilities of a [world] record. *)

From Stdlib Require Import Ascii String NArith.
From stdpp Require Import gmap strings list fin_maps sorting pretty.

(** ** Python [str] primitives *)

Module PyStr.

Local Open Scope N_scope.

Definition code (c : ascii) : N := N_of_ascii c.

Definition between (lo hi : N) (c : ascii) : bool :=
  (lo <=? code c) && (code c <=? hi).

(** [str.isspace] on one character: TAB..CR, FS..US, SPACE, NEL, NBSP. *)
Definition isspace (c : ascii) : bool :=
  between 9 13 c || between 28 32 c || (code c =? 133) || (code c =? 160).

(** [str.isdigit] on one character: the decimal digits and the
    superscripts one, two and three. *)
Definition isdigit_char (c : ascii) : bool :=
  between 48 57 c || (code c =? 178) || (code c =? 179) || (code c =? 185).

Definition isupper_char (c : ascii) : bool :=
  between 65 90 c || between 192 214 c || between 216 222 c.

(** Letters: ASCII, the ordinal indicators, micro sign, and the Latin-1
    letters (multiplication and division signs excluded). *)
Definition isalpha_char (c : ascii) : bool :=
  between 65 90 c || between 97 122 c || (code c =? 170) || (code c =? 181)
  || (code c =? 186) || between 192 214 c || between 216 246 c
  || between 248 255 c.

(** Numeric characters that are not digits: the vulgar fractions. *)
Definition isnumeric_char (c : ascii) : bool :=
  isdigit_char c || between 188 190 c.

(** The class [\w] of [re] on [str] patterns: alphanumeric or underscore. *)
Definition is_word (c : ascii) : bool :=
  isalpha_char c || isnumeric_char c || (code c =? 95).

Definition lower_char (c : ascii) : ascii :=
  if isupper_char c then ascii_of_N (code c + 32) else c.

(** [s.lower()] *)
Fixpoint lower (s : string) : string :=
  match s with
  | EmptyString => EmptyString
  | String c r => String (lower_char c) (lower r)
  end.

(** Truth value of a string: only the empty string is false. *)
Definition truthy (s : string) : bool :=
  match s with EmptyString => false | String _ _ => true end.

(** [s.startswith(p)] *)
Definition startswith (s p : string) : bool := String.prefix p s.

Fixpoint all_chars (f : ascii → bool) (s : string) : bool :=
  match s with
  | EmptyString => true
  | String c r => f c && all_chars f r
  end.

(** [s.isdigit()]: every character is a digit and there is at least one. *)
Definition isdigit (s : string) : bool := truthy s && all_chars isdigit_char s.

(** [s.lstrip()], [s.rstrip()], [s.strip()] without arguments. *)
Fixpoint lstrip (s : string) : string :=
  match s with
  | EmptyString => EmptyString
  | String c r => if isspace c then lstrip r else s
  end.

Fixpoint rstrip (s : string) : string :=
  match s with
  | EmptyString => EmptyString
  | String c r =>
      match rstrip r with
      | EmptyString => if isspace c then EmptyString else String c EmptyString
      | r' => String c r'
      end
  end.

Definition strip (s : string) : string := rstrip (lstrip s).

(** [s.replace(old, new)] for a non-empty [old]: occurrences are found
    left to right and do not overlap.  [skip] counts the characters of
    the occurrence just replaced that are still to be passed over. *)
Fixpoint replace_go (old new : string) (skip : nat) (s : string) : string :=
  match s with
  | EmptyString => EmptyString
  | String c r =>
      match skip with
      | S k => replace_go old new k r
      | O =>
          if startswith s old
          then new +:+ replace_go old new (Nat.pred (String.length old)) r
          else String c (replace_go old new 0 r)
      end
  end.

Definition replace (s old new : string) : string := replace_go old new 0 s.

Definition LF : ascii := "010"%char.
Definition CR : ascii := "013"%char.

End PyStr.

Import PyStr.

(** ** The regular expression [\b\w+\b]

    [re.findall] scans the subject from the left; at each position it
    tries the pattern, and after a match it resumes at the end of the
    match.  The pattern is followed item by item: a word boundary, then
    [\w+] taken greedily and given back one character at a time until the
    closing boundary holds. *)

Module Re.

Definition is_word_at (c : option ascii) : bool :=
  match c with Some a => is_word a | None => false end.

Definition head (s : string) : option ascii :=
  match s with EmptyString => None | String c _ => Some c end.

(** [\b] between the character before the position and the one at it. *)
Definition word_boundary (before after : option ascii) : bool :=
  xorb (is_word_at before) (is_word_at after).

(** [\w+\b] at the start of [s]: one word character, then either more of
    the same (tried first) or the closing boundary. *)
Fixpoint match_word_plus (s : string) : option string :=
  match s with
  | EmptyString => None
  | String c r =>
      if is_word c then
        match match_word_plus r with
        | Some m => Some (String c m)
        | None =>
            if word_boundary (Some c) (head r)
            then Some (String c EmptyString) else None
        end
      else None
  end.

(** [\b\w+\b] at a position whose preceding character is [before]. *)
Definition match_at (before : option ascii) (s : string) : option string :=
  if word_boundary before (head s) then match_word_plus s else None.

(** The scan of [findall]; [skip] counts the characters of the last
    match still to be passed over. *)
Fixpoint findall_go (before : option ascii) (skip : nat) (s : string)
  : list string :=
  match s with
  | EmptyString => []
  | String c r =>
      match skip with
      | S k => findall_go (Some c) k r
      | O =>
          match match_at before s with
          | Some m => m :: findall_go (Some c) (Nat.pred (String.length m)) r
          | None => findall_go (Some c) 0 r
          end
      end
  end.

(** [re.findall(r'\b\w+\b', s)] *)
Definition findall_words (s : string) : list string := findall_go None 0 s.

End Re.

(** ** WordNet categories and the tag mapping *)

(** [wordnet.NOUN], [wordnet.VERB], [wordnet.ADJ], [wordnet.ADV]. *)
Inductive wordnet_pos : Type := NOUN | VERB | ADJ | ADV.

Global Instance wordnet_pos_eq_dec : EqDecision wordnet_pos.
Proof. solve_decision. Defined.

Definition get_wordnet_pos (tag : string) : wordnet_pos :=
  if startswith tag "J" then ADJ
  else if startswith tag "V" then VERB
  else if startswith tag "N" then NOUN
  else if startswith tag "R" then ADV
  else NOUN.

(** ** Effects: printed lines, written files, exceptions and exits *)

Inductive exn : Type :=
  | OSError            (* a file cannot be opened *)
  | UnicodeDecodeError (* a file is not UTF-8 *)
  | ValueError         (* raised by the word-cloud generator *)
  | PdfError.          (* anything raised while a PDF is read *)

Inductive message : Type :=
  | MsgLoaded (n : nat) (filepath : string)
  | MsgNoKnownWords
  | MsgLemmatizing
  | MsgProcessing (pdf_path : string)
  | MsgReading (pages : nat)
  | MsgErrorReading (pdf_path : string) (e : exn)
  | MsgNoText
  | MsgSavingAll (n : nat) (output_path : string)
  | MsgSavingTop (top_n : nat) (output_path : string)
  | MsgGenerating (top_n : nat)
  | MsgCloudSaved (output_path : string)
  | MsgDone
  | MsgResultsSaved (output_dir : string).

Inductive event : Type :=
  | EvPrint (m : message)
  | EvCsv (output_path : string) (rows : list (string * nat))
  | EvImage (output_path : string) (frequencies : list (string * nat)).

(** How a call ends: it returns, raises, or leaves through [sys.exit]. *)
Inductive outcome (A : Type) : Type :=
  | Return (a : A)
  | Raise (e : exn)
  | Exit (status : Z).
Arguments Return {A} a.
Arguments Raise {A} e.
Arguments Exit {A} status.

(** A computation: the events it emitted, in order, and how it ended. *)
Definition io (A : Type) : Type := list event * outcome A.

Global Instance io_ret : MRet io := λ A a, ([], Return a).

Global Instance io_bind : MBind io := λ A B f m,
  match m.2 with
  | Return a => (m.1 ++ (f a).1, (f a).2)
  | Raise e => (m.1, Raise e)
  | Exit n => (m.1, Exit n)
  end.

Definition emit (m : message) : io unit := ([EvPrint m], Return ()).
Definition raise {A} (e : exn) : io A := ([], Raise e).
Definition sys_exit {A} (status : Z) : io A := ([], Exit status).
Definition perform (e : event) : io unit := ([e], Return ()).

(** ** [collections.Counter]

    A Counter is a dict: its keys are distinct and stay in the order of
    their first insertion. *)

Module Counter.

Definition t : Type := list (string * nat).

(** [c.get(k)] *)
Fixpoint get (c : t) (k : string) : option nat :=
  match c with
  | [] => None
  | (k', n) :: c' => if decide (k' = k) then Some n else get c' k
  end.

(** [c[k]], which is also [c.get(k, 0)]: a missing key counts zero. *)
Definition item (c : t) (k : string) : nat := default 0 (get c k).

Definition keys (c : t) : list string := c.*1.

(** [c[elem] = c.get(elem, 0) + 1] *)
Fixpoint incr (elem : string) (c : t) : t :=
  match c with
  | [] => [(elem, 1)]
  | (k, n) :: c' =>
      if decide (k = elem) then (k, S n) :: c' else (k, n) :: incr elem c'
  end.

(** [Counter(iterable)] *)
Definition of_list (l : list string) : t := foldl (λ c elem, incr elem c) [] l.

(** [c.items()] *)
Definition items (c : t) : list (string * nat) := c.

Fixpoint insert_desc (x : string * nat) (l : list (string * nat))
  : list (string * nat) :=
  match l with
  | [] => [x]
  | y :: l' => if x.2 <? y.2 then y :: insert_desc x l' else x :: l
  end.

(** [sorted(items, key=itemgetter(1), reverse=True)]: by count, largest
    first, equal counts in their original order. *)
Fixpoint sorted_desc (l : list (string * nat)) : list (string * nat) :=
  match l with
  | [] => []
  | x :: l' => insert_desc x (sorted_desc l')
  end.

(** [c.most_common(n)] *)
Definition most_common (n : nat) (c : t) : list (string * nat) :=
  take n (sorted_desc (items c)).

End Counter.

(** ** The capabilities the program is given

    The stopword list, the lemmatizer, the morphological lookup and the
    tagger come from NLTK; the others stand for the file system,
    pdfplumber and wordcloud. *)

Record world : Type := {
  (** [set(stopwords.words('english'))] *)
  stop_words : gset string;
  (** [lemmatizer.lemmatize(word, pos)] *)
  lemmatize : string → wordnet_pos → string;
  (** [wordnet.morphy(form, pos)], [pos] being optional *)
  morphy : string → option wordnet_pos → option string;
  (** [pos_tag(words)]: pairs of a word and its fine-grained tag *)
  pos_tag : list string → list (string * string);
  (** [os.path.isfile(path)] *)
  isfile : string → bool;
  (** opening [path] for reading as UTF-8 and reading it to the end *)
  read_text : string → exn + string;
  (** [pdfplumber.open(path).pages], then [extract_text()] of each page *)
  pdf_pages : string → exn + list (exn + option string);
  (** whether [path] can be opened for writing *)
  can_write : string → bool;
  (** whether [generate_from_frequencies] accepts the frequencies *)
  cloud_accepts : list (string * nat) → bool
}.

(** The tagger answers with the words it was given, each with a tag. *)
Definition tagger_keeps_words (W : world) : Prop :=
  ∀ words, (pos_tag W words).*1 = words.

(** ** Reading a text file line by line *)

(** Universal newlines: CR LF and a lone CR are read as LF. *)
Fixpoint universal_newlines (s : string) : string :=
  match s with
  | EmptyString => EmptyString
  | String c r =>
      if decide (c = CR) then
        match r with
        | String c' r' =>
            if decide (c' = LF) then String LF (universal_newlines r')
            else String LF (universal_newlines r)
        | EmptyString => String LF EmptyString
        end
      else String c (universal_newlines r)
  end.

(** The lines of a text, each with its LF when it has one. *)
Fixpoint split_lines (s : string) : list string :=
  match s with
  | EmptyString => []
  | String c r =>
      if decide (c = LF) then String c EmptyString :: split_lines r
      else match split_lines r with
           | [] => [String c EmptyString]
           | line :: lines => String c line :: lines
           end
  end.

(** [for line in f] *)
Definition file_lines (content : string) : list string :=
  split_lines (universal_newlines content).

(** ** The program *)

Section Program.

Variable W : world.

(** [normalize_word(word, tag=None)] *)
Definition normalize_word (word : string) (tag : option wordnet_pos) : string :=
  let lemma := lemmatize W word (default NOUN tag) in
  let morphed := morphy W lemma None in
  match morphed with
  | Some m => if truthy m then m else lemma
  | None => lemma
  end.

(** The body of the loop over the lines of the known-words file. *)
Definition add_known_line (known_words : gset string) (line : string)
  : gset string :=
  let w := lower (strip line) in
  if truthy w then {[ normalize_word w None ]} ∪ known_words else known_words.

(** Truth value of an optional path: [None] and the empty string are
    false. *)
Definition path_given (filepath : option string) : bool :=
  match filepath with Some p => truthy p | None => false end.

(** [load_known_words(filepath=None)] *)
Definition load_known_words (filepath : option string) : io (gset string) :=
  let known_words : gset string := ∅ in
  if path_given filepath && isfile W (default "" filepath) then
    match read_text W (default "" filepath) with
    | inr content =>
        let known_words := foldl add_known_line known_words (file_lines content) in
        emit (MsgLoaded (size known_words) (default "" filepath));;
        mret known_words
    | inl e => raise e
    end
  else
    emit MsgNoKnownWords;; mret known_words.

(** The first three statements of [clean_and_lemmatize]: the text with
    wrapped lines joined, cut into lower-case words, and filtered. *)
Definition clean_words (text : string) : list string :=
  let text := replace (replace text (String "-" (String LF "")) "")
                      (String LF "") " " in
  let words := Re.findall_words (lower text) in
  filter (λ w, (w ∉ stop_words W) ∧ (¬ isdigit w) ∧ 3 ≤ String.length w) words.

(** The loop of [clean_and_lemmatize] over the tagged words. *)
Definition lemmatize_tagged (tagged : list (string * string)) : list string :=
  map (λ '(word, tag), normalize_word word (Some (get_wordnet_pos tag))) tagged.

(** [clean_and_lemmatize(text)] *)
Definition clean_and_lemmatize (text : string) : io (list string) :=
  let words := clean_words text in
  emit MsgLemmatizing;;
  let tagged := pos_tag W words in
  mret (lemmatize_tagged tagged).

(** The loop of [process_pdf] over the pages; a page whose text is
    [None] or empty adds nothing. *)
Fixpoint extract_pages (pages : list (exn + option string)) (text : string)
  : exn + string :=
  match pages with
  | [] => inr text
  | inl e :: _ => inl e
  | inr page_text :: pages' =>
      extract_pages pages'
        (if truthy (default "" page_text)
         then text +:+ default "" page_text +:+ " " else text)
  end.

(** [process_pdf(pdf_path)] *)
Definition process_pdf (pdf_path : string) : io (option (list string)) :=
  emit (MsgProcessing pdf_path);;
  match pdf_pages W pdf_path with
  | inl e => emit (MsgErrorReading pdf_path e);; mret None
  | inr pages =>
      emit (MsgReading (length pages));;
      match extract_pages pages "" with
      | inl e => emit (MsgErrorReading pdf_path e);; mret None
      | inr text =>
          if negb (truthy (strip text)) then
            emit MsgNoText;; mret None
          else
            lemmatized_words ← clean_and_lemmatize text;
            mret (Some lemmatized_words)
      end
  end.

(** [save_word_freq_csv(word_freq, output_path, top_n=None)]; the header
    row is the same in every file and is left out of the event. *)
Definition save_word_freq_csv (word_freq : Counter.t) (output_path : string)
    (top_n : option nat) : io unit :=
  let words_to_save :=
    match top_n with
    | None => Counter.items word_freq
    | Some n => Counter.most_common n word_freq
    end in
  emit (match top_n with
        | None => MsgSavingAll (length word_freq) output_path
        | Some n => MsgSavingTop n output_path
        end);;
  if can_write W output_path then perform (EvCsv output_path words_to_save)
  else raise OSError.

(** [save_wordcloud(word_freq, output_path, top_n)] *)
Definition save_wordcloud (word_freq : Counter.t) (output_path : string)
    (top_n : nat) : io unit :=
  emit (MsgGenerating top_n);;
  let top_words := Counter.most_common top_n word_freq in
  if cloud_accepts W top_words then
    if can_write W output_path then
      perform (EvImage output_path top_words);;
      emit (MsgCloudSaved output_path)
    else raise OSError
  else raise ValueError.

End Program.

(** ** Classification and the run *)

Record tables : Type := {
  excluded_freq : Counter.t;
  unknown_freq : Counter.t;
  all_freq : Counter.t
}.

(** The two comprehensions and the three Counters of [main]. *)
Definition classify (lemmatized_words : list string) (known_words : gset string)
  : tables :=
  let excluded_words := filter (λ w, w ∈ known_words) lemmatized_words in
  let unknown_words := filter (λ w, w ∉ known_words) lemmatized_words in
  {| excluded_freq := Counter.of_list excluded_words;
     unknown_freq := Counter.of_list unknown_words;
     all_freq := Counter.of_list lemmatized_words |}.

(** [os.path.join(a, b)] on POSIX paths. *)
Definition path_join (a b : string) : string :=
  if startswith b "/" then b
  else if negb (truthy a) || startswith (String.rev a) "/" then a +:+ b
  else a +:+ "/" +:+ b.

(** The five calls that write the results. *)
Definition save_results (W : world) (t : tables) (top_n : nat)
    (output_dir : string) : io unit :=
  let unknown_csv :=
    path_join output_dir ("top" +:+ pretty top_n +:+ "_unknown_words.csv") in
  let unknown_img :=
    path_join output_dir
      ("wordcloud_top" +:+ pretty top_n +:+ "_unknown_words.png") in
  save_word_freq_csv W (unknown_freq t) unknown_csv (Some top_n);;
  save_wordcloud W (unknown_freq t) unknown_img top_n;;
  let excluded_csv := path_join output_dir "excluded_known_words.csv" in
  save_word_freq_csv W (excluded_freq t) excluded_csv None;;
  let all_words_csv := path_join output_dir "all_words.csv" in
  save_word_freq_csv W (all_freq t) all_words_csv None;;
  let all_words_img :=
    path_join output_dir ("wordcloud_top" +:+ pretty top_n +:+ "_all_words.png") in
  save_wordcloud W (all_freq t) all_words_img top_n;;
  emit MsgDone;;
  emit (MsgResultsSaved output_dir).

(** [main] from the call of [load_known_words] on.  Before it, [main]
    parses the arguments, checks that the PDF path names a file and that
    [top_n] is positive, and creates the output directory. *)
Definition main (W : world) (pdf_path : string) (top_n : nat)
    (known_words_file : option string) (output_dir : string) : io unit :=
  known_words ← load_known_words W known_words_file;
  lemmatized_words ← process_pdf W pdf_path;
  match lemmatized_words with
  | None => sys_exit 1
  | Some lemmatized_words =>
      save_results W (classify lemmatized_words known_words) top_n output_dir
  end.

(** ** A small world to run the program in

    The lexicon is a handful of WordNet entries, looked up the way NLTK
    does: [lemmatize] takes the shortest analysis of the word in the given
    category (the word itself when there is none), [morphy] the first
    analysis, and without a category it goes through noun, verb, adjective
    and adverb in that order. *)

Module Toy.

(** The base forms of a word in a category. *)
Definition analyses (form : string) (pos : wordnet_pos) : list string :=
  match pos with
  | NOUN =>
      if decide (form = "cats") then ["cat"]
      else if decide (form = "runs") then ["run"]
      else if decide (form ∈ ["cat"; "run"; "running"; "going"; "go";
                              "use"; "home"; "fast"])
      then [form] else []
  | VERB =>
      if decide (form ∈ ["running"; "runs"]) then ["run"]
      else if decide (form = "going") then ["go"]
      else if decide (form = "owned") then ["own"]
      else if decide (form = "used") then ["use"]
      else if decide (form ∈ ["run"; "go"; "own"; "use"; "fast"])
      then [form] else []
  | ADJ =>
      if decide (form ∈ ["used"; "own"; "fast"]) then [form] else []
  | ADV =>
      if decide (form ∈ ["fast"; "home"]) then [form] else []
  end.

Fixpoint shortest (best : string) (l : list string) : string :=
  match l with
  | [] => best
  | x :: l' =>
      shortest (if (String.length x <? String.length best)%nat then x else best) l'
  end.

Definition toy_lemmatize (word : string) (pos : wordnet_pos) : string :=
  match analyses word pos with
  | [] => word
  | x :: l => shortest x l
  end.

Definition toy_morphy (form : string) (pos : option wordnet_pos)
  : option string :=
  match pos with
  | Some p => List.head (analyses form p)
  | None => List.head (concat (map (analyses form) [NOUN; VERB; ADJ; ADV]))
  end.

Definition toy_tag (word : string) : string :=
  if decide (word ∈ ["going"; "running"]) then "VBG"
  else if decide (word = "owned") then "VBD"
  else if decide (word = "runs") then "VBZ"
  else if decide (word = "cats") then "NNS"
  else if decide (word = "used") then "JJ"
  else if decide (word = "fast") then "RB"
  else "NN".

Definition known_txt : string :=
  "Cats" +:+ String CR (String LF "") +:+ "  run " +:+ String LF ""
  +:+ String LF "" +:+ "cat".

Definition toy_pdf (path : string) : exn + list (exn + option string) :=
  if decide (path = "cats.pdf") then
    inr [inr (Some ("The cats are running. Cat-" +:+ String LF ""
                    +:+ "Cat runs fast."));
         inr None; inr (Some "")]
  else if decide (path = "blank.pdf") then
    inr [inr (Some (String LF "  ")); inr None]
  else if decide (path = "stop.pdf") then
    inr [inr (Some "To be or not to be, 42.")]
  else if decide (path = "going.pdf") then
    inr [inr (Some "Going home; owned 2024")]
  else inl PdfError.

Definition W : world := {|
  stop_words := list_to_set ["the"; "are"; "and"; "own"; "not"; "was"];
  lemmatize := toy_lemmatize;
  morphy := toy_morphy;
  pos_tag := λ words, map (λ w, (w, toy_tag w)) words;
  isfile := λ p, bool_decide (p ∈ ["known.txt"; "locked.txt"]);
  read_text := λ p, if decide (p = "known.txt") then inr known_txt else inl OSError;
  pdf_pages := toy_pdf;
  can_write := λ _, true;
  (** the generator raises [ValueError] when it is given no word *)
  cloud_accepts := λ frequencies, bool_decide (frequencies ≠ [])
|}.

End Toy.

(** ** The steps of the tokenizer as the specification words them *)

(** A hyphen immediately followed by a line break is removed together
    with the break. *)
Fixpoint join_line_wraps (s : string) : string :=
  match s with
  | EmptyString => EmptyString
  | String c r =>
      match r with
      | String c' r' =>
          if decide (c = "-"%char ∧ c' = LF) then join_line_wraps r'
          else String c (join_line_wraps r)
      | EmptyString => String c EmptyString
      end
  end.

(** Every line break becomes a space. *)
Fixpoint breaks_to_spaces (s : string) : string :=
  match s with
  | EmptyString => EmptyString
  | String c r => String (if decide (c = LF) then " "%char else c) (breaks_to_spaces r)
  end.

(** [maximal_runs s l]: [l] lists, from left to right, the maximal runs
    of word characters of [s]. *)
Inductive maximal_runs : string → list string → Prop :=
  | runs_end : maximal_runs "" []
  | runs_skip c s l :
      is_word c = false → maximal_runs s l → maximal_runs (String c s) l
  | runs_take w rest l :
      w ≠ "" → all_chars is_word w = true →
      Re.is_word_at (Re.head rest) = false →
      maximal_runs rest l → maximal_runs (w +:+ rest) (w :: l).

(** The tokens the filter drops. *)
Definition dropped (W : world) (w : string) : Prop :=
  w ∈ stop_words W ∨ isdigit w = true ∨ String.length w < 3.

(** ** The normalizer as the specification words it: the lookup scoped by
    the category. *)
Definition normalize_scoped (W : world) (word : string) (category : wordnet_pos)
  : string :=
  let candidate := lemmatize W word category in
  match morphy W candidate (Some category) with
  | Some m => if truthy m then m else candidate
  | None => candidate
  end.

(** ** Definitions used to state the properties *)

Global Instance dropped_dec (W : world) (w : string) : Decision (dropped W w).
Proof. unfold dropped. apply _. Defined.

(** How many times [k] occurs in [l]. *)
Definition occurrences (k : string) (l : list string) : nat :=
  length (filter (λ x, x = k) l).

(** The set the specification describes: the lines stripped and
    lower-cased, the blank ones skipped, the others normalized as nouns. *)
Definition known_set (W : world) (content : string) : gset string :=
  list_to_set
    (map (λ w, normalize_word W w (Some NOUN))
       (filter (λ w, w ≠ "")
          (map (λ line, lower (strip line)) (file_lines content)))).

(** A path resolves to a readable file. *)
Definition readable (W : world) (p : string) : Prop :=
  isfile W p = true ∧ ∃ content, read_text W p = inr content.

(** A run that did not complete: an exception left it, or [sys.exit] with
    a status other than zero. *)
Definition aborted {A} (o : outcome A) : Prop :=
  match o with
  | Return _ => False
  | Raise _ => True
  | Exit status => status ≠ 0%Z
  end.

Definition empty_tables : tables :=
  {| excluded_freq := []; unknown_freq := []; all_freq := [] |}.

(** ** The arguments and the output directory

    The part of [main] that comes before the known words are loaded: the
    checks of the parsed arguments and the choice of the output
    directory. *)

(** [s.endswith(suffix)] *)
Definition endswith (s suffix : string) : bool :=
  startswith (String.rev s) (String.rev suffix).

(** [s.rfind(c)] for a single character: its last index, or -1. *)
Fixpoint rfind_go (c : ascii) (i best : Z) (s : string) : Z :=
  match s with
  | EmptyString => best
  | String a r => rfind_go c (i + 1) (if decide (a = c) then i else best) r
  end.

Definition rfind (c : ascii) (s : string) : Z := rfind_go c 0 (-1) s.

(** [s[:n]] and [s[n:]] for a non-negative [n]. *)
Fixpoint str_take (n : nat) (s : string) : string :=
  match n, s with
  | S n', String c r => String c (str_take n' r)
  | _, _ => EmptyString
  end.

Fixpoint str_drop (n : nat) (s : string) : string :=
  match n, s with
  | S n', String _ r => str_drop n' r
  | _, _ => s
  end.

(** [os.path.basename(p)]: what follows the last slash. *)
Definition basename (p : string) : string :=
  str_drop (Z.to_nat (rfind "/" p + 1)) p.

(** [os.path.splitext(p)[0]]: the extension starts at the last dot, when
    that dot is in the last component and a character other than a dot
    comes before it there. *)
Definition splitext_root (p : string) : string :=
  let sepIndex := rfind "/" p in
  let dotIndex := rfind "." p in
  if (sepIndex <? dotIndex)%Z then
    let before_dot :=
      str_take (Z.to_nat (dotIndex - (sepIndex + 1)))
        (str_drop (Z.to_nat (sepIndex + 1)) p) in
    if all_chars (λ c, bool_decide (c = "."%char)) before_dot then p
    else str_take (Z.to_nat dotIndex) p
  else p.

(** The parsed arguments. *)
Module Args.
Record t : Type := {
  pdf_path : string;
  num_top_words : Z;
  known_words_file : option string;
  output_dir : option string
}.
End Args.

(** Directories: [os.path.isdir], [os.makedirs(path, exist_ok=True)]
    (the exception it raises, if any) and [os.getcwd()]. *)
Record directories : Type := {
  isdir : string → bool;
  makedirs : string → option exn;
  getcwd : string
}.

(** Why a run stops before the known words are loaded: one of the three
    messages followed by [sys.exit(1)], or the exception of the
    unguarded [makedirs]. *)
Inductive stop : Type :=
  | StopInvalidPdf
  | StopInvalidTopN
  | StopCannotCreate (output_dir : string) (e : exn)
  | StopRaised (e : exn).

(** [main] from the parsed arguments to the output directory. *)
Definition main_setup (W : world) (D : directories) (args : Args.t)
  : stop + string :=
  let pdf_path := Args.pdf_path args in
  let top_n := Args.num_top_words args in
  if negb (isfile W pdf_path) || negb (endswith (lower pdf_path) ".pdf") then
    inl StopInvalidPdf
  else if (top_n <=? 0)%Z then
    inl StopInvalidTopN
  else if path_given (Args.output_dir args) then
    let output_dir := default "" (Args.output_dir args) in
    if negb (isdir D output_dir) then
      match makedirs D output_dir with
      | Some e => inl (StopCannotCreate output_dir e)
      | None => inr output_dir
      end
    else inr output_dir
  else
    let project_root := getcwd D in
    let pdf_basename := splitext_root (basename pdf_path) in
    let output_dir := path_join (path_join project_root "results") pdf_basename in
    match makedirs D output_dir with
    | Some e => inl (StopRaised e)
    | None => inr output_dir
    end.

(** [main] from the parsed arguments on. *)
Definition main_from_args (W : world) (D : directories) (args : Args.t)
  : stop + io unit :=
  match main_setup W D args with
  | inl s => inl s
  | inr output_dir =>
      inr (main W (Args.pdf_path args) (Z.to_nat (Args.num_top_words args))
             (Args.known_words_file args) output_dir)
  end.

(** ** Further definitions used to state properties *)

(** [sum(c.values())] *)
Definition total (c : Counter.t) : nat := sum_list (c.*2).

(** The character [c] does not occur in [s]. *)
Definition absent (c : ascii) (s : string) : Prop :=
  all_chars (λ a, bool_decide (a ≠ c)) s = true.

(** The arguments pass the two checks of [main]. *)
Definition valid_arguments (W : world) (args : Args.t) : Prop :=
  isfile W (Args.pdf_path args) = true
  ∧ endswith (lower (Args.pdf_path args)) ".pdf" = true
  ∧ (0 < Args.num_top_words args)%Z.

(** The events that write a file. *)
Definition writes_file (e : event) : bool :=
  match e with EvPrint _ => false | EvCsv _ _ | EvImage _ _ => true end.

(** The text as [clean_and_lemmatize] has it before the words are taken. *)
Definition joined_text (text : string) : string :=
  replace (replace text (String "-" (String LF "")) "") (String LF "") " ".

(** The texts of the pages that add to the extracted text. *)
Definition page_texts (pages : list (option string)) : list string :=
  filter (λ t, t ≠ "") (omap id pages).

Definition toy_directories : directories := {|
  isdir := λ d, bool_decide (d = "out");
  makedirs := λ d, if decide (d = "/proc/out") then Some OSError else None;
  getcwd := "/home/user"
|}.

(** The small world with two word lists on disk: the same words in
    another order, with a repetition, other letter case and white space. *)
Definition toy_world_lists : world := {|
  stop_words := stop_words Toy.W;
  lemmatize := lemmatize Toy.W;
  morphy := morphy Toy.W;
  pos_tag := pos_tag Toy.W;
  isfile := λ p, bool_decide (p ∈ ["a.txt"; "b.txt"]);
  read_text := λ p,
    if decide (p = "a.txt") then inr ("cat" +:+ String LF "run")
    else inr ("Run " +:+ String LF "cat" +:+ String LF "CAT" +:+ String LF "");
  pdf_pages := pdf_pages Toy.W;
  can_write := can_write Toy.W;
  cloud_accepts := cloud_accepts Toy.W
|}.

(** The small world with two PDF files on disk. *)
Definition toy_world_pdf : world := {|
  stop_words := stop_words Toy.W;
  lemmatize := lemmatize Toy.W;
  morphy := morphy Toy.W;
  pos_tag := pos_tag Toy.W;
  isfile := λ p, bool_decide (p ∈ ["known.txt"; "cats.pdf"; "docs/Report.v2.PDF"]);
  read_text := read_text Toy.W;
  pdf_pages := pdf_pages Toy.W;
  can_write := can_write Toy.W;
  cloud_accepts := cloud_accepts Toy.W
|}.

(** * Properties *)

(** ** The program run on small inputs *)

Example findall_words_ex : Re.findall_words "ab_c  d--e9 " = ["ab_c"; "d"; "e9"].
Proof. reflexivity. Qed.

Example replace_ex : replace "aaa--b-c" "aa" "x" = "xa--b-c".
Proof. reflexivity. Qed.

Example strip_ex : strip (String LF "  Cat  " +:+ String CR (String LF "")) = "Cat".
Proof. reflexivity. Qed.

Example file_lines_ex :
  file_lines ("a" +:+ String CR (String LF "") +:+ "b" +:+ String CR "c")
  = [String "a" (String LF ""); String "b" (String LF ""); "c"].
Proof. reflexivity. Qed.

Example most_common_ex :
  Counter.most_common 2 (Counter.of_list ["a"; "b"; "c"; "b"; "c"; "d"])
  = [("b", 2); ("c", 2)].
Proof. reflexivity. Qed.

Example clean_words_ex :
  clean_words Toy.W
    ("The cats are running. Cat-" +:+ String LF "" +:+ "Cat runs fast 2024.")
  = ["cats"; "running"; "catcat"; "runs"; "fast"].
Proof. vm_compute. reflexivity. Qed.

Example process_pdf_ex :
  process_pdf Toy.W "cats.pdf"
  = ([EvPrint (MsgProcessing "cats.pdf"); EvPrint (MsgReading 3);
      EvPrint MsgLemmatizing],
     Return (Some ["cat"; "run"; "catcat"; "run"; "fast"])).
Proof. vm_compute. reflexivity. Qed.

Example load_known_words_ex :
  load_known_words Toy.W (Some "known.txt")
  = ([EvPrint (MsgLoaded 2 "known.txt")], Return (list_to_set ["cat"; "run"])).
Proof. vm_compute. reflexivity. Qed.

Example main_ex :
  main Toy.W "cats.pdf" 2 (Some "known.txt") "out"
  = ([EvPrint (MsgLoaded 2 "known.txt");
      EvPrint (MsgProcessing "cats.pdf"); EvPrint (MsgReading 3);
      EvPrint MsgLemmatizing;
      EvPrint (MsgSavingTop 2 "out/top2_unknown_words.csv");
      EvCsv "out/top2_unknown_words.csv" [("catcat", 1); ("fast", 1)];
      EvPrint (MsgGenerating 2);
      EvImage "out/wordcloud_top2_unknown_words.png" [("catcat", 1); ("fast", 1)];
      EvPrint (MsgCloudSaved "out/wordcloud_top2_unknown_words.png");
      EvPrint (MsgSavingAll 2 "out/excluded_known_words.csv");
      EvCsv "out/excluded_known_words.csv" [("cat", 1); ("run", 2)];
      EvPrint (MsgSavingAll 4 "out/all_words.csv");
      EvCsv "out/all_words.csv"
        [("cat", 1); ("run", 2); ("catcat", 1); ("fast", 1)];
      EvPrint (MsgGenerating 2);
      EvImage "out/wordcloud_top2_all_words.png" [("run", 2); ("cat", 1)];
      EvPrint (MsgCloudSaved "out/wordcloud_top2_all_words.png");
      EvPrint MsgDone; EvPrint (MsgResultsSaved "out")],
     Return ()).
Proof. vm_compute. reflexivity. Qed.

(** ** Strings *)

Section StringFacts.

Lemma app_cons c (s t : string) : String c s +:+ t = String c (s +:+ t).
Proof. reflexivity. Qed.

Lemma app_empty_l (s : string) : "" +:+ s = s.
Proof. reflexivity. Qed.

Lemma length_app (s t : string) :
  String.length (s +:+ t) = String.length s + String.length t.
Proof. induction s as [|c s IH]; [done|]. rewrite app_cons. simpl. by rewrite IH. Qed.

Lemma all_chars_lstrip s : all_chars isspace (lstrip s) = all_chars isspace s.
Proof.
  induction s as [|c r IH]; [done|]. simpl.
  destruct (isspace c) eqn:Hc; simpl; [done|]. by rewrite Hc.
Qed.

Lemma rstrip_empty s : rstrip s = "" ↔ all_chars isspace s = true.
Proof.
  induction s as [|c r IH]; [done|]. simpl.
  destruct (rstrip r) as [|c' r'] eqn:Hr.
  - destruct (isspace c); simpl; [tauto|]. split; [done|]. done.
  - split; [done|]. intros [_ Hall]%andb_prop. apply IH in Hall. done.
Qed.

(** A text strips to nothing exactly when it is empty or all white space. *)
Lemma strip_empty s : strip s = "" ↔ all_chars isspace s = true.
Proof. unfold strip. by rewrite rstrip_empty, all_chars_lstrip. Qed.

Lemma truthy_strip s : truthy (strip s) = negb (all_chars isspace s).
Proof.
  destruct (all_chars isspace s) eqn:Hs.
  - apply strip_empty in Hs. by rewrite Hs.
  - destruct (strip s) eqn:Hstrip; [|done].
    apply strip_empty in Hstrip. congruence.
Qed.

Lemma startswith_empty s : startswith s "" = true.
Proof. by destruct s. Qed.

Lemma startswith_cons c s p ps :
  startswith (String c s) (String p ps) = bool_decide (p = c) && startswith s ps.
Proof.
  unfold startswith. cbn [String.prefix].
  destruct (ascii_dec p c) as [->|Hne].
  - by rewrite bool_decide_eq_true_2.
  - by rewrite bool_decide_eq_false_2.
Qed.

Lemma startswith_nil p ps : startswith "" (String p ps) = false.
Proof. done. Qed.

Lemma replace_go_here old new c r :
  replace_go old new 0 (String c r) =
    if startswith (String c r) old
    then new +:+ replace_go old new (Nat.pred (String.length old)) r
    else String c (replace_go old new 0 r).
Proof. reflexivity. Qed.

Lemma replace_go_skip old new k c r :
  replace_go old new (S k) (String c r) = replace_go old new k r.
Proof. reflexivity. Qed.

Lemma join_line_wraps_two c a r :
  join_line_wraps (String c (String a r)) =
    if decide (c = "-"%char ∧ a = LF) then join_line_wraps r
    else String c (join_line_wraps (String a r)).
Proof. reflexivity. Qed.

Lemma replace_hyphen_break_go s :
  replace_go (String "-" (String LF "")) "" 0 s = join_line_wraps s
  ∧ ∀ c, replace_go (String "-" (String LF "")) "" 0 (String c s)
         = join_line_wraps (String c s).
Proof.
  induction s as [|a r [IH1 IH2]].
  - split; [done|]. intros c.
    rewrite replace_go_here, startswith_cons, startswith_nil.
    by rewrite andb_false_r.
  - split; [apply IH2|]. intros c.
    rewrite replace_go_here, join_line_wraps_two.
    rewrite !startswith_cons, startswith_empty, andb_true_r.
    destruct (decide (c = "-"%char ∧ a = LF)) as [[-> ->]|Hne].
    + rewrite !bool_decide_eq_true_2 by done. cbn [andb].
      change (String.length _) with 2%nat. cbn [Nat.pred].
      rewrite replace_go_skip, app_empty_l. apply IH1.
    + rewrite IH2.
      destruct (bool_decide ("-"%char = c)) eqn:Hc; [|done].
      destruct (bool_decide (LF = a)) eqn:Ha; [|done].
      apply bool_decide_eq_true in Hc, Ha. by destruct Hne.
Qed.

(** Replacing the two characters hyphen, line break by nothing joins
    the wrapped lines. *)
Lemma replace_hyphen_break s :
  replace s (String "-" (String LF "")) "" = join_line_wraps s.
Proof. apply replace_hyphen_break_go. Qed.

(** Replacing the line break by a space changes each break and nothing
    else. *)
Lemma replace_break s : replace s (String LF "") " " = breaks_to_spaces s.
Proof.
  unfold replace. induction s as [|c r IH]; [done|].
  rewrite replace_go_here, startswith_cons, startswith_empty, andb_true_r.
  cbn [breaks_to_spaces]. rewrite <- IH.
  case_bool_decide as Hc.
  - subst. by rewrite decide_True.
  - by rewrite decide_False.
Qed.

End StringFacts.

(** ** The word pattern finds the maximal runs *)

Section RegexFacts.

Import Re.

Lemma findall_go_here before c r :
  findall_go before 0 (String c r) =
    match match_at before (String c r) with
    | Some m => m :: findall_go (Some c) (Nat.pred (String.length m)) r
    | None => findall_go (Some c) 0 r
    end.
Proof. reflexivity. Qed.

(** What [\w+\b] matches: the longest run of word characters at the
    start of the subject, when there is one. *)
Lemma match_word_plus_run s :
  match match_word_plus s with
  | Some m => ∃ rest, s = m +:+ rest ∧ m ≠ "" ∧ all_chars is_word m = true
                      ∧ is_word_at (head rest) = false
  | None => is_word_at (head s) = false
  end.
Proof.
  induction s as [|c r IH]; [done|]. cbn [match_word_plus].
  destruct (is_word c) eqn:Hc; [|by simpl].
  destruct (match_word_plus r) as [m|].
  - destruct IH as (rest & -> & _ & Hall & Hrest).
    exists rest. repeat split; [done| |done]. simpl. by rewrite Hc, Hall.
  - unfold word_boundary. rewrite IH. simpl. rewrite Hc. simpl.
    exists r. repeat split; [done| |done]. simpl. by rewrite Hc.
Qed.

(** Where no word starts, the character before does not matter. *)
Lemma findall_go_before s b b' :
  is_word_at (head s) = false → findall_go b 0 s = findall_go b' 0 s.
Proof.
  destruct s as [|c r]; [done|]. intros Hc.
  rewrite !findall_go_here. unfold match_at.
  pose proof (match_word_plus_run (String c r)) as Hm.
  destruct (match_word_plus (String c r)) as [m|].
  - destruct Hm as (rest & Heq & Hne & Hall & _).
    destruct m as [|c' m]; [done|]. rewrite app_cons in Heq.
    simplify_eq. simpl in Hall, Hc. rewrite Hc in Hall. done.
  - by destruct (word_boundary b _), (word_boundary b' _).
Qed.

(** Passing over the rest of a match. *)
Lemma findall_go_skip m rest b :
  is_word_at (head rest) = false →
  findall_go b (String.length m) (m +:+ rest) = findall_go None 0 rest.
Proof.
  intros Hrest. revert b. induction m as [|c m IH]; intros b.
  - rewrite app_empty_l. by apply findall_go_before.
  - rewrite app_cons. cbn [String.length findall_go]. apply IH.
Qed.

Lemma word_boundary_start b c :
  is_word_at b = false → is_word c = true → word_boundary b (Some c) = true.
Proof. unfold word_boundary. simpl. by intros -> ->. Qed.

Lemma findall_go_runs n : ∀ s b,
  String.length s ≤ n →
  is_word_at b = false ∨ is_word_at (head s) = false →
  maximal_runs s (findall_go b 0 s).
Proof.
  induction n as [|n IH]; intros [|c r] b Hlen Hb;
    try (by constructor); [simpl in Hlen; lia|].
  rewrite findall_go_here. unfold match_at.
  pose proof (match_word_plus_run (String c r)) as Hm.
  destruct (match_word_plus (String c r)) as [m|].
  - destruct Hm as (rest & Heq & Hne & Hall & Hrest).
    destruct m as [|c' m]; [done|]. rewrite app_cons in Heq.
    injection Heq as <- ->.
    assert (is_word c = true) as Hc.
    { simpl in Hall. by apply andb_prop in Hall as [? _]. }
    destruct Hb as [Hb|Hb]; [|simpl in Hb; congruence].
    change (head (String c (m +:+ rest))) with (Some c).
    rewrite word_boundary_start by done.
    cbn [String.length Nat.pred].
    rewrite findall_go_skip by done. rewrite <- app_cons.
    apply runs_take; [done..|]. apply IH; [|by right].
    simpl in Hlen. rewrite length_app in Hlen. lia.
  - assert (maximal_runs (String c r) (findall_go (Some c) 0 r)) as Hruns.
    { apply runs_skip; [done|]. apply IH; [simpl in Hlen; lia|by left]. }
    by destruct (word_boundary b (head (String c r))).
Qed.

(** [re.findall] with the word pattern lists the maximal runs of word
    characters. *)
Lemma findall_words_runs s : maximal_runs s (findall_words s).
Proof. apply (findall_go_runs (String.length s)); [done|by left]. Qed.

Lemma run_split_unique w1 rest1 w2 rest2 :
  all_chars is_word w1 = true → all_chars is_word w2 = true →
  is_word_at (head rest1) = false → is_word_at (head rest2) = false →
  w1 +:+ rest1 = w2 +:+ rest2 → w1 = w2 ∧ rest1 = rest2.
Proof.
  revert w2. induction w1 as [|c w1 IH]; intros [|c2 w2] H1 H2 Hr1 Hr2 Heq.
  - done.
  - rewrite app_empty_l, app_cons in Heq. subst rest1.
    simpl in Hr1, H2. apply andb_prop in H2 as [H2 _]. congruence.
  - rewrite app_empty_l, app_cons in Heq. subst rest2.
    simpl in Hr2, H1. apply andb_prop in H1 as [H1 _]. congruence.
  - rewrite !app_cons in Heq. injection Heq as <- Heq.
    simpl in H1, H2. apply andb_prop in H1 as [_ H1], H2 as [_ H2].
    destruct (IH w2 H1 H2 Hr1 Hr2 Heq) as [-> ->]. done.
Qed.

(** A text has one list of maximal runs. *)
Lemma maximal_runs_unique s l1 l2 :
  maximal_runs s l1 → maximal_runs s l2 → l1 = l2.
Proof.
  intros H1. revert l2.
  induction H1 as [|c s l Hc H1 IH|w rest l Hne Hall Hrest H1 IH];
    intros l2 H2.
  - inversion H2 as [| |w rest l Hne Hall Hrest H Heq]; [done|].
    destruct w; [done|]. by rewrite app_cons in Heq.
  - inversion H2 as [|c' s' l' Hc' H2'|w rest l' Hne Hall Hrest H2' Heq];
      subst.
    + by apply IH.
    + destruct w as [|c' w]; [done|]. rewrite app_cons in Heq.
      simplify_eq. simpl in Hall. rewrite Hc in Hall. done.
  - destruct w as [|c w]; [done|].
    inversion H2 as [|c' s' l' Hc' H2'|w' rest' l' Hne' Hall' Hrest' H2' Heq];
      subst.
    + simpl in Hall. rewrite Hc' in Hall. done.
    + apply run_split_unique in Heq as [-> ->]; [|done..].
      f_equal. by apply IH.
Qed.

End RegexFacts.

(** ** Counters *)

Section CounterFacts.

Import Counter.

Lemma get_incr elem c k :
  get (incr elem c) k =
    if decide (elem = k) then Some (S (item c elem)) else get c k.
Proof.
  unfold item. induction c as [|[k' n] c IH]; simpl.
  - by destruct (decide (elem = k)).
  - destruct (decide (k' = elem)) as [->|Hne]; simpl.
    + destruct (decide (elem = k)); simpl; [done|]. done.
    + rewrite IH.
      destruct (decide (k' = k)) as [->|Hk];
        destruct (decide (elem = k)); simplify_eq; done.
Qed.

Lemma item_incr elem c k :
  item (incr elem c) k = item c k + (if decide (elem = k) then 1 else 0).
Proof.
  unfold item at 1. rewrite get_incr.
  destruct (decide (elem = k)) as [->|]; simpl; [lia|].
  unfold item. lia.
Qed.

Lemma occurrences_cons x k l :
  occurrences k (x :: l) = (if decide (x = k) then 1 else 0) + occurrences k l.
Proof.
  unfold occurrences. rewrite filter_cons.
  by destruct (decide (x = k)).
Qed.

Lemma item_foldl l : ∀ c k,
  item (foldl (λ c elem, incr elem c) c l) k = item c k + occurrences k l.
Proof.
  induction l as [|x l IH]; intros c k; simpl.
  - unfold occurrences. simpl. lia.
  - rewrite IH, item_incr, occurrences_cons. lia.
Qed.

(** A Counter built from a list counts the occurrences in the list. *)
Lemma item_of_list l k : item (of_list l) k = occurrences k l.
Proof. unfold of_list. by rewrite item_foldl. Qed.

Lemma get_keys c k : is_Some (get c k) ↔ k ∈ keys c.
Proof.
  unfold keys. induction c as [|[k' n] c IH]; simpl.
  - split; [by intros [? ?]|]. by intros ?%elem_of_nil.
  - rewrite elem_of_cons. destruct (decide (k' = k)) as [->|Hne].
    + split; [by left|by eauto].
    + rewrite IH. split; [by right|]. by intros [?|?].
Qed.

Lemma keys_incr elem c k : k ∈ keys (incr elem c) ↔ k = elem ∨ k ∈ keys c.
Proof.
  rewrite <- !get_keys, get_incr.
  destruct (decide (elem = k)) as [->|Hne].
  - split; [by left|by eauto].
  - split; [by right|]. by intros [->|?].
Qed.

Lemma keys_foldl l : ∀ c k,
  k ∈ keys (foldl (λ c elem, incr elem c) c l) ↔ k ∈ keys c ∨ k ∈ l.
Proof.
  induction l as [|x l IH]; intros c k; simpl.
  - rewrite elem_of_nil. tauto.
  - rewrite IH, keys_incr, elem_of_cons. tauto.
Qed.

(** The keys of a Counter built from a list are the elements of the
    list. *)
Lemma keys_of_list l k : k ∈ keys (of_list l) ↔ k ∈ l.
Proof.
  unfold of_list. rewrite keys_foldl. unfold keys. simpl.
  rewrite elem_of_nil. tauto.
Qed.

Lemma positive_incr elem c :
  Forall (λ kv, 0 < kv.2) c → Forall (λ kv, 0 < kv.2) (incr elem c).
Proof.
  induction 1 as [|[k n] c Hn Hc IH]; simpl.
  - repeat constructor.
  - destruct (decide (k = elem)); constructor; simpl in *; auto with lia.
Qed.

Lemma positive_foldl l : ∀ c,
  Forall (λ kv, 0 < kv.2) c →
  Forall (λ kv, 0 < kv.2) (foldl (λ c elem, incr elem c) c l).
Proof.
  induction l as [|x l IH]; intros c Hc; simpl; [done|].
  by apply IH, positive_incr.
Qed.

Lemma positive_of_list l : Forall (λ kv, 0 < kv.2) (items (of_list l)).
Proof. by apply positive_foldl. Qed.

Lemma get_items c k n : get c k = Some n → (k, n) ∈ items c.
Proof.
  unfold items. induction c as [|[k' n'] c IH]; simpl; [done|].
  destruct (decide (k' = k)) as [->|Hne].
  - intros [= ->]. by left.
  - intros ?. right. by apply IH.
Qed.

(** A stored count is at least one. *)
Lemma get_of_list_positive l k n : get (of_list l) k = Some n → 0 < n.
Proof.
  intros Hget%get_items.
  pose proof (positive_of_list l) as Hpos.
  rewrite Forall_forall in Hpos. apply (Hpos (k, n) Hget).
Qed.

(** A new key goes to the end; a key already there keeps its place. *)
Lemma keys_incr_order elem c :
  keys (incr elem c) = if decide (elem ∈ keys c) then keys c else keys c ++ [elem].
Proof.
  unfold keys. induction c as [|[k n] c IH].
  - destruct (decide (elem ∈ ([] : Counter.t).*1)) as [Hin|Hin]; [|done].
    by apply elem_of_nil in Hin.
  - cbn [incr]. destruct (decide (k = elem)) as [->|Hne].
    + destruct (decide (elem ∈ ((elem, n) :: c).*1)) as [Hin|Hin]; [done|].
      destruct Hin. by left.
    + cbn [fmap list_fmap]. rewrite IH. cbn [fst].
      destruct (decide (elem ∈ c.*1)) as [Hin|Hin];
        destruct (decide (elem ∈ k :: c.*1)) as [Hin'|Hin']; try done.
      * destruct Hin'. by right.
      * apply elem_of_cons in Hin' as [?|?]; [congruence|done].
Qed.

Lemma NoDup_keys_foldl l : ∀ c,
  NoDup (keys c) → NoDup (keys (foldl (λ c elem, incr elem c) c l)).
Proof.
  induction l as [|x l IH]; intros c Hc; simpl; [done|].
  apply IH. rewrite keys_incr_order.
  destruct (decide (x ∈ keys c)) as [Hin|Hin]; [done|].
  apply NoDup_app. split_and!; [done| |apply NoDup_singleton].
  intros y Hy ->%list_elem_of_singleton. done.
Qed.

(** The keys of a Counter are distinct, as those of a dict are. *)
Lemma NoDup_keys_of_list l : NoDup (keys (of_list l)).
Proof. apply NoDup_keys_foldl. constructor. Qed.

Lemma occurrences_zero k l : occurrences k l = 0 ↔ k ∉ l.
Proof.
  unfold occurrences. rewrite length_zero_iff_nil. split.
  - intros Hnil. by apply (filter_nil_not_elem_of _ _ _ Hnil).
  - intros Hk. induction l as [|x l IH]; [done|].
    rewrite not_elem_of_cons in Hk. destruct Hk as [Hx Hl].
    rewrite filter_cons. rewrite decide_False by done. by apply IH.
Qed.

Lemma occurrences_split (P : string → Prop) `{!∀ x, Decision (P x)} k l :
  occurrences k l =
    occurrences k (filter P l) + occurrences k (filter (λ x, ¬ P x) l).
Proof.
  induction l as [|x l IH]; [done|].
  rewrite !filter_cons, occurrences_cons.
  destruct (decide (P x)) as [HP|HP]; destruct (decide (¬ P x)) as [HQ|HQ];
    try tauto; rewrite occurrences_cons; lia.
Qed.

Lemma occurrences_filter (P : string → Prop) `{!∀ x, Decision (P x)} k l :
  occurrences k (filter P l) = if decide (P k) then occurrences k l else 0.
Proof.
  unfold occurrences. rewrite list_filter_filter.
  destruct (decide (P k)) as [HP|HP].
  - f_equal. apply list_filter_iff. intros x. split; [tauto|].
    intros ->. done.
  - apply length_zero_iff_nil.
    induction l as [|x l IH]; [done|]. rewrite filter_cons.
    destruct (decide (x = k ∧ P x)) as [[-> ?]|?]; done.
Qed.

End CounterFacts.

(** ** Properties of the classifier *)

(** C1. For every lemma stream and known-word set, each table counts the
    occurrences in the stream: the table of all words gives every lemma
    its number of occurrences, the known table gives it that number when
    the lemma is a known word and zero otherwise, the unknown table the
    other way round; so the count in the table of all words is the sum of
    the counts in the known and the unknown table (a missing key counting
    zero).  The known and the unknown table are the Counters of two lists
    that together are a rearrangement of the stream; a key of the known
    table is a known word, a key of the unknown table is not, and no
    lemma is counted in both. *)
Theorem partition_invariant (lemmatized_words : list string)
    (known_words : gset string) :
  let t := classify lemmatized_words known_words in
  (∀ L, Counter.item (all_freq t) L = occurrences L lemmatized_words)
  ∧ (∀ L, Counter.item (excluded_freq t) L
          = if decide (L ∈ known_words) then occurrences L lemmatized_words else 0)
  ∧ (∀ L, Counter.item (unknown_freq t) L
          = if decide (L ∈ known_words) then 0 else occurrences L lemmatized_words)
  ∧ (∀ L, Counter.item (all_freq t) L
          = Counter.item (excluded_freq t) L + Counter.item (unknown_freq t) L)
  ∧ (∃ excluded_words unknown_words,
       excluded_freq t = Counter.of_list excluded_words
       ∧ unknown_freq t = Counter.of_list unknown_words
       ∧ excluded_words ++ unknown_words ≡ₚ lemmatized_words
       ∧ excluded_words = filter (λ w, w ∈ known_words) lemmatized_words
       ∧ unknown_words = filter (λ w, w ∉ known_words) lemmatized_words)
  ∧ (∀ L, L ∈ Counter.keys (excluded_freq t) → L ∈ known_words)
  ∧ (∀ L, L ∈ Counter.keys (unknown_freq t) → L ∉ known_words)
  ∧ (∀ L, Counter.item (excluded_freq t) L = 0
          ∨ Counter.item (unknown_freq t) L = 0).
Proof.
  cbn zeta. unfold classify; cbn [all_freq excluded_freq unknown_freq].
  split_and!.
  - intros L. apply item_of_list.
  - intros L. rewrite item_of_list.
    rewrite (occurrences_filter (λ w, w ∈ known_words)).
    by destruct (decide (L ∈ known_words)).
  - intros L. rewrite item_of_list.
    rewrite (occurrences_filter (λ w, w ∉ known_words)).
    destruct (decide (L ∈ known_words)) as [HL|HL].
    + rewrite decide_False; [done|]. intros Hn. by apply Hn.
    + by rewrite decide_True.
  - intros L. rewrite !item_of_list.
    apply (occurrences_split (λ w, w ∈ known_words)).
  - eexists _, _. split_and!; [done|done| |done|done].
    apply filter_app_complement.
  - intros L [HL _]%keys_of_list%list_elem_of_filter. done.
  - intros L [HL _]%keys_of_list%list_elem_of_filter. done.
  - intros L. rewrite !item_of_list, !occurrences_zero.
    destruct (decide (L ∈ known_words)) as [HL|HL].
    + right. rewrite list_elem_of_filter. tauto.
    + left. rewrite list_elem_of_filter. tauto.
Qed.

(** C9. Every key stored in one of the three tables has a count of at
    least one, whatever the lemma stream and the known-word set; the keys
    of the table of all words are the lemmas that occur in the stream. *)
Theorem counts_positive (lemmatized_words : list string)
    (known_words : gset string) :
  let t := classify lemmatized_words known_words in
  Forall (λ kv, 0 < kv.2) (Counter.items (excluded_freq t))
  ∧ Forall (λ kv, 0 < kv.2) (Counter.items (unknown_freq t))
  ∧ Forall (λ kv, 0 < kv.2) (Counter.items (all_freq t))
  ∧ (∀ k, k ∈ Counter.keys (all_freq t) ↔ k ∈ lemmatized_words).
Proof.
  cbn zeta. unfold classify; cbn [all_freq excluded_freq unknown_freq].
  split_and!; try apply positive_of_list.
  intros k. apply keys_of_list.
Qed.

Lemma classify_empty_known (lemmatized_words : list string) :
  classify lemmatized_words ∅ =
    {| excluded_freq := []; unknown_freq := Counter.of_list lemmatized_words;
       all_freq := Counter.of_list lemmatized_words |}.
Proof.
  unfold classify. f_equal.
  - replace (filter (λ w, w ∈ (∅ : gset string)) lemmatized_words) with (@nil string);
      [done|].
    induction lemmatized_words as [|x l IH]; [done|].
    rewrite filter_cons. by rewrite decide_False by set_solver.
  - f_equal. induction lemmatized_words as [|x l IH]; [done|].
    rewrite filter_cons. rewrite decide_True by set_solver. by f_equal.
Qed.

Lemma load_known_words_absent (W : world) (filepath : option string) :
  path_given filepath && isfile W (default "" filepath) = false →
  load_known_words W filepath = ([EvPrint MsgNoKnownWords], Return ∅).
Proof. unfold load_known_words. by intros ->. Qed.

(** C6. When no known-words file is named, or the name is not that of a
    file, the loader returns the empty set, and with it, for every lemma
    stream, the known table is empty and the unknown table is the table of
    all words. *)
Theorem absent_known_words (W : world) (filepath : option string)
    (lemmatized_words : list string) :
  filepath = None ∨ isfile W (default "" filepath) = false →
  ∃ known_words,
    load_known_words W filepath = ([EvPrint MsgNoKnownWords], Return known_words)
    ∧ excluded_freq (classify lemmatized_words known_words) = []
    ∧ unknown_freq (classify lemmatized_words known_words)
      = all_freq (classify lemmatized_words known_words).
Proof.
  intros Habsent. exists ∅. split; [|by rewrite classify_empty_known].
  apply load_known_words_absent.
  destruct Habsent as [->| ->]; [done|]. apply andb_false_r.
Qed.

Lemma absent_known_words_witness :
  ∃ known_words,
    load_known_words Toy.W (Some "nowhere.txt")
      = ([EvPrint MsgNoKnownWords], Return known_words)
    ∧ excluded_freq (classify ["cat"; "run"; "cat"] known_words) = []
    ∧ unknown_freq (classify ["cat"; "run"; "cat"] known_words)
      = all_freq (classify ["cat"; "run"; "cat"] known_words).
Proof.
  apply (absent_known_words Toy.W (Some "nowhere.txt") ["cat"; "run"; "cat"]).
  right. reflexivity.
Defined.

(** ** Properties of the tokenizer and the tag mapping *)

Lemma kept_not_dropped (W : world) (w : string) :
  (w ∉ stop_words W) ∧ (¬ isdigit w) ∧ 3 ≤ String.length w ↔ ¬ dropped W w.
Proof.
  unfold dropped. rewrite Is_true_true. split.
  - intros (Hs & Hd & Hl) [?|[?|?]]; [done|done|lia].
  - intros Hkeep. split_and!; [tauto|tauto|].
    destruct (decide (3 ≤ String.length w)); [done|]. exfalso. apply Hkeep.
    right. right. lia.
Qed.

(** C3. The words kept from a text are obtained by removing every hyphen
    that is immediately followed by a line break, with that break, turning
    the remaining breaks into spaces, lower-casing, taking the maximal
    runs of word characters from left to right, and removing, without
    changing the order, exactly the runs that are stopwords, all digits,
    or shorter than three characters. *)
Theorem clean_words_spec (W : world) (text : string) :
  let joined := join_line_wraps text in
  let spaced := breaks_to_spaces joined in
  ∃ tokens,
    maximal_runs (lower spaced) tokens
    ∧ (∀ tokens', maximal_runs (lower spaced) tokens' → tokens' = tokens)
    ∧ clean_words W text = filter (λ w, ¬ dropped W w) tokens
    ∧ sublist (clean_words W text) tokens
    ∧ (∀ w, w ∈ tokens → (w ∈ clean_words W text ↔ ¬ dropped W w)).
Proof.
  cbn zeta. unfold clean_words.
  rewrite replace_hyphen_break, replace_break.
  set (s := lower (breaks_to_spaces (join_line_wraps text))).
  exists (Re.findall_words s).
  pose proof (findall_words_runs s) as Hruns.
  split_and!.
  - done.
  - intros tokens' Hruns'. by apply (maximal_runs_unique s).
  - apply list_filter_iff. intros w. apply kept_not_dropped.
  - apply sublist_filter.
  - intros w Hw. rewrite list_elem_of_filter, kept_not_dropped. tauto.
Qed.

(** C4. A tag that starts with J is mapped to the adjective, with V to the
    verb, with N to the noun, with R to the adverb; the empty tag and a
    tag that starts with any other character are mapped to the noun.  The
    mapping is a function of the tag alone. *)
Theorem get_wordnet_pos_spec (c : ascii) (rest : string) :
  get_wordnet_pos (String "J" rest) = ADJ
  ∧ get_wordnet_pos (String "V" rest) = VERB
  ∧ get_wordnet_pos (String "N" rest) = NOUN
  ∧ get_wordnet_pos (String "R" rest) = ADV
  ∧ get_wordnet_pos "" = NOUN
  ∧ get_wordnet_pos (String c rest) =
      (if decide (c = "J"%char) then ADJ
       else if decide (c = "V"%char) then VERB
       else if decide (c = "R"%char) then ADV
       else NOUN).
Proof.
  unfold get_wordnet_pos.
  rewrite !startswith_cons, !startswith_empty, !andb_true_r.
  split_and!; try reflexivity.
  repeat case_bool_decide; subst;
    repeat (rewrite decide_True by done);
    repeat (rewrite decide_False by done); try done.
Qed.

(** ** Properties of the normalizer *)

Lemma toy_tagger_keeps_words : tagger_keeps_words Toy.W.
Proof.
  intros words. simpl. induction words as [|w l IH]; [done|].
  simpl. by f_equal.
Qed.

(** C2, as worded: the lookup scoped by the category.  In WordNet "used"
    is an adjective of its own and, as a verb form, an inflection of
    "use"; the lookup without a category meets the verb before the
    adjective. *)
Lemma normalize_word_not_scoped :
  normalize_word Toy.W "used" (Some ADJ) = "use"
  ∧ normalize_scoped Toy.W "used" ADJ = "used"
  ∧ normalize_word Toy.W "used" (Some ADJ) ≠ normalize_scoped Toy.W "used" ADJ.
Proof. split_and!; [reflexivity|reflexivity|discriminate]. Qed.

(** C2, amended.  For every word and optional category, the normalizer
    first asks the lemmatizer for the base form in the category, the noun
    when none is given; it then looks the candidate up with no category;
    a non-empty answer is the lemma, and otherwise the candidate is.  It
    always returns a lemma. *)
Theorem normalize_word_spec (W : world) (word : string) (tag : option wordnet_pos) :
  let candidate := lemmatize W word (default NOUN tag) in
  normalize_word W word tag =
    match morphy W candidate None with
    | Some m => if decide (m = "") then candidate else m
    | None => candidate
    end
  ∧ normalize_word W word None = normalize_word W word (Some NOUN)
  ∧ (normalize_word W word tag = candidate
     ∨ morphy W candidate None = Some (normalize_word W word tag)).
Proof.
  cbn zeta. unfold normalize_word.
  destruct (morphy W (lemmatize W word (default NOUN tag)) None) as [[|c m]|];
    simpl; split_and!; auto.
Qed.

(** ** Properties of the vocabulary loader *)

Lemma truthy_nonempty s : truthy s = true ↔ s ≠ "".
Proof. by destruct s. Qed.

Lemma foldl_add_known_line (W : world) (lines : list string) : ∀ acc,
  foldl (add_known_line W) acc lines =
    list_to_set
      (map (λ w, normalize_word W w (Some NOUN))
         (filter (λ w, w ≠ "") (map (λ line, lower (strip line)) lines)))
    ∪ acc.
Proof.
  induction lines as [|line lines IH]; intros acc.
  - simpl. by rewrite (left_id_L ∅ (∪)).
  - cbn [foldl map]. rewrite IH. unfold add_known_line. rewrite filter_cons.
    destruct (lower (strip line)) as [|c w] eqn:Hw.
    + rewrite decide_False by (by intros []). done.
    + rewrite decide_True by done. cbn [truthy map].
      rewrite list_to_set_cons.
      change (normalize_word W (String c w) None)
        with (normalize_word W (String c w) (Some NOUN)).
      rewrite !union_assoc_L. f_equal. apply union_comm_L.
Qed.

(** C5, as worded: a file that exists and cannot be read is not a
    readable file, and the loader does not return the empty set for it. *)
Lemma unreadable_known_words_file :
  ¬ readable Toy.W "locked.txt"
  ∧ load_known_words Toy.W (Some "locked.txt") = ([], Raise OSError)
  ∧ (load_known_words Toy.W (Some "locked.txt")).2 ≠ Return ∅.
Proof.
  split_and!; [|reflexivity|discriminate].
  intros [_ [content Hcontent]]. discriminate.
Qed.

Lemma load_known_words_eq (W : world) (filepath : option string) :
  load_known_words W filepath =
    match filepath with
    | Some p =>
        if decide (p ≠ "" ∧ isfile W p = true) then
          match read_text W p with
          | inr content =>
              ([EvPrint (MsgLoaded (size (known_set W content)) p)],
               Return (known_set W content))
          | inl e => ([], Raise e)
          end
        else ([EvPrint MsgNoKnownWords], Return ∅)
    | None => ([EvPrint MsgNoKnownWords], Return ∅)
    end.
Proof.
  unfold load_known_words. destruct filepath as [p|]; [|done]. simpl.
  destruct (decide (p ≠ "" ∧ isfile W p = true)) as [[Hp Hfile]|Hno].
  - apply truthy_nonempty in Hp. rewrite Hp, Hfile. simpl.
    destruct (read_text W p) as [e|content]; [done|].
    rewrite foldl_add_known_line, (right_id_L ∅ (∪)). done.
  - destruct (truthy p) eqn:Hp; [|done].
    destruct (isfile W p) eqn:Hfile; [|done].
    apply truthy_nonempty in Hp. tauto.
Qed.

Lemma elem_of_known_set (W : world) (content k : string) :
  k ∈ known_set W content ↔
  ∃ line, line ∈ file_lines content ∧ lower (strip line) ≠ ""
          ∧ k = normalize_word W (lower (strip line)) (Some NOUN).
Proof.
  unfold known_set.
  rewrite elem_of_list_to_set, list_elem_of_fmap. split.
  - intros (w & -> & [Hw (line & -> & Hline)%list_elem_of_fmap]%list_elem_of_filter).
    by exists line.
  - intros (line & Hline & Hw & ->). eexists. split; [done|].
    apply list_elem_of_filter. split; [done|].
    apply list_elem_of_fmap. by exists line.
Qed.

(** C5, amended.  When no path is given, or the path is empty or does not
    name an existing file, the loader returns the empty set and the run
    goes on.  When the path names a file that can be read, it returns the
    set of the normalized words of the file: lines stripped and
    lower-cased, blank lines skipped, each word normalized as a noun,
    duplicates collapsing.  When the file exists and cannot be read, the
    error of the read is raised. *)
Theorem load_known_words_spec (W : world) (filepath : option string) :
  load_known_words W filepath =
    match filepath with
    | Some p =>
        if decide (p ≠ "" ∧ isfile W p = true) then
          match read_text W p with
          | inr content =>
              ([EvPrint (MsgLoaded (size (known_set W content)) p)],
               Return (known_set W content))
          | inl e => ([], Raise e)
          end
        else ([EvPrint MsgNoKnownWords], Return ∅)
    | None => ([EvPrint MsgNoKnownWords], Return ∅)
    end
  ∧ ∀ content k,
      k ∈ known_set W content ↔
      ∃ line, line ∈ file_lines content ∧ lower (strip line) ≠ ""
              ∧ k = normalize_word W (lower (strip line)) (Some NOUN).
Proof. split; [apply load_known_words_eq|apply elem_of_known_set]. Qed.

(** ** Properties of the run *)

Section RunFacts.

Variable W : world.

Lemma clean_and_lemmatize_eq text :
  clean_and_lemmatize W text =
    ([EvPrint MsgLemmatizing],
     Return (lemmatize_tagged W (pos_tag W (clean_words W text)))).
Proof. reflexivity. Qed.

(** [process_pdf] on a PDF that opens and whose pages all extract. *)
Lemma process_pdf_text pdf_path pages text :
  pdf_pages W pdf_path = inr pages →
  extract_pages pages "" = inr text →
  process_pdf W pdf_path =
    if all_chars isspace text
    then ([EvPrint (MsgProcessing pdf_path); EvPrint (MsgReading (length pages));
           EvPrint MsgNoText], Return None)
    else ([EvPrint (MsgProcessing pdf_path); EvPrint (MsgReading (length pages));
           EvPrint MsgLemmatizing],
          Return (Some (lemmatize_tagged W (pos_tag W (clean_words W text))))).
Proof.
  intros Hpages Htext. unfold process_pdf.
  rewrite Hpages, Htext, truthy_strip, negb_involutive.
  by destruct (all_chars isspace text).
Qed.

Lemma main_after_pdf pdf_path top_n known_words_file output_dir plog r :
  process_pdf W pdf_path = (plog, Return r) →
  main W pdf_path top_n known_words_file output_dir =
    match (load_known_words W known_words_file).2 with
    | Return known_words =>
        match r with
        | None => ((load_known_words W known_words_file).1 ++ plog, Exit 1)
        | Some lemmatized_words =>
            let report :=
              save_results W (classify lemmatized_words known_words)
                top_n output_dir in
            ((load_known_words W known_words_file).1 ++ plog ++ report.1,
             report.2)
        end
    | Raise e => ((load_known_words W known_words_file).1, Raise e)
    | Exit status => ((load_known_words W known_words_file).1, Exit status)
    end.
Proof.
  intros Hpdf. unfold main, mbind, io_bind.
  destruct (load_known_words W known_words_file) as [log [known|e|status]];
    cbn [fst snd]; [|done..].
  rewrite Hpdf. cbn [fst snd].
  destruct r as [l|]; cbn [fst snd sys_exit].
  - by rewrite app_assoc.
  - by rewrite app_nil_r.
Qed.

Lemma load_known_words_log known_words_file :
  Forall (λ e, ∃ m, e = EvPrint m ∧ m ≠ MsgLemmatizing)
    (load_known_words W known_words_file).1
  ∧ ∀ status, (load_known_words W known_words_file).2 ≠ Exit status.
Proof.
  rewrite load_known_words_eq.
  destruct known_words_file as [p|];
    [destruct (decide _); [destruct (read_text W p)|]|];
    cbn [fst snd]; split; try done;
    repeat constructor; eexists; split; done.
Qed.

End RunFacts.

(** C7, as worded.  The filter is applied to the tokens, before they are
    normalized; the lemma of a kept token can be short, or a stopword. *)
Lemma lemma_keys_short_or_stopword :
  clean_and_lemmatize Toy.W "Going home; owned 2024"
    = ([EvPrint MsgLemmatizing], Return ["go"; "home"; "own"])
  ∧ "go" ∈ Counter.keys (all_freq (classify ["go"; "home"; "own"] ∅))
  ∧ String.length "go" < 3
  ∧ "own" ∈ Counter.keys (unknown_freq (classify ["go"; "home"; "own"] ∅))
  ∧ "own" ∈ stop_words Toy.W.
Proof.
  split_and!.
  - vm_compute. reflexivity.
  - rewrite classify_empty_known. apply keys_of_list. set_solver.
  - simpl. lia.
  - rewrite classify_empty_known. apply keys_of_list. set_solver.
  - apply elem_of_list_to_set. set_solver.
Qed.

(** C7, amended.  Every key of the three tables is the lemma of a token
    that the filter kept: a token that is not a stopword, is not all
    digits and has at least three characters. *)
Theorem table_keys_from_kept_tokens (W : world) (text : string)
    (lemmatized_words : list string) (known_words : gset string) (k : string) :
  tagger_keeps_words W →
  (clean_and_lemmatize W text).2 = Return lemmatized_words →
  k ∈ Counter.keys (excluded_freq (classify lemmatized_words known_words))
  ∨ k ∈ Counter.keys (unknown_freq (classify lemmatized_words known_words))
  ∨ k ∈ Counter.keys (all_freq (classify lemmatized_words known_words)) →
  ∃ w tag,
    (w, tag) ∈ pos_tag W (clean_words W text)
    ∧ k = normalize_word W w (Some (get_wordnet_pos tag))
    ∧ (w ∉ stop_words W) ∧ isdigit w = false ∧ 3 ≤ String.length w.
Proof.
  intros Htagger Hrun Hkey.
  rewrite clean_and_lemmatize_eq in Hrun. cbn [snd] in Hrun.
  injection Hrun as <-.
  assert (k ∈ lemmatize_tagged W (pos_tag W (clean_words W text))) as Hk.
  { unfold classify in Hkey; cbn [excluded_freq unknown_freq all_freq] in Hkey.
    rewrite !keys_of_list, !list_elem_of_filter in Hkey. tauto. }
  unfold lemmatize_tagged in Hk.
  apply (list_elem_of_fmap_1 _ (pos_tag W (clean_words W text))) in Hk
    as ([w tag] & -> & Hin).
  exists w, tag. split; [done|]. split; [done|].
  assert (w ∈ clean_words W text) as Hw.
  { rewrite <- (Htagger (clean_words W text)).
    apply (list_elem_of_fmap_2' fst _ (w, tag)); done. }
  unfold clean_words in Hw. apply list_elem_of_filter in Hw as [(Hs & Hd & Hl) _].
  split_and!; [done| |done]. by destruct (isdigit w).
Qed.

Lemma table_keys_from_kept_tokens_witness :
  ∃ w tag,
    (w, tag) ∈ pos_tag Toy.W (clean_words Toy.W "Going home; owned 2024")
    ∧ "go" = normalize_word Toy.W w (Some (get_wordnet_pos tag))
    ∧ (w ∉ stop_words Toy.W) ∧ isdigit w = false ∧ 3 ≤ String.length w.
Proof.
  apply (table_keys_from_kept_tokens Toy.W "Going home; owned 2024"
           ["go"; "home"; "own"] ∅ "go").
  - apply toy_tagger_keeps_words.
  - vm_compute. reflexivity.
  - right. right. vm_compute. left.
Defined.

(** C8. When the text extracted from the PDF is empty or all white space,
    [process_pdf] prints that no text was extracted and returns [None]
    without starting the lemmatization; [main] then ends without
    completing, through [sys.exit(1)] when the known words were loaded,
    and nothing but the lines of the loader and of [process_pdf] is
    emitted: no table is written. *)
Theorem no_text_no_tables (W : world) (pdf_path : string) (top_n : nat)
    (known_words_file : option string) (output_dir : string)
    (pages : list (exn + option string)) (text : string) :
  pdf_pages W pdf_path = inr pages →
  extract_pages pages "" = inr text →
  all_chars isspace text = true →
  let no_data :=
    [EvPrint (MsgProcessing pdf_path); EvPrint (MsgReading (length pages));
     EvPrint MsgNoText] in
  let run := main W pdf_path top_n known_words_file output_dir in
  process_pdf W pdf_path = (no_data, Return None)
  ∧ aborted run.2
  ∧ (∀ known_words,
       (load_known_words W known_words_file).2 = Return known_words →
       run = ((load_known_words W known_words_file).1 ++ no_data, Exit 1))
  ∧ Forall (λ e, ∃ m, e = EvPrint m ∧ m ≠ MsgLemmatizing) run.1.
Proof.
  intros Hpages Htext Hspace. cbn zeta.
  pose proof (process_pdf_text W pdf_path pages text Hpages Htext) as Hpdf.
  rewrite Hspace in Hpdf.
  rewrite (main_after_pdf W pdf_path top_n known_words_file output_dir _ _ Hpdf).
  destruct (load_known_words_log W known_words_file) as [Hlog Hexit].
  split_and!.
  - done.
  - destruct (load_known_words W known_words_file) as [log [known|e|status]];
      cbn [fst snd aborted] in *; [done|done|]. by destruct (Hexit status).
  - by intros known ->.
  - destruct (load_known_words W known_words_file) as [log [known|e|status]];
      cbn [fst snd] in *; [|done..].
    apply Forall_app. split; [done|].
    repeat constructor; eexists; split; done.
Qed.

Lemma no_text_no_tables_witness :
  process_pdf Toy.W "blank.pdf"
    = ([EvPrint (MsgProcessing "blank.pdf"); EvPrint (MsgReading 2);
        EvPrint MsgNoText], Return None)
  ∧ main Toy.W "blank.pdf" 10 (Some "known.txt") "out"
    = ([EvPrint (MsgLoaded 2 "known.txt"); EvPrint (MsgProcessing "blank.pdf");
        EvPrint (MsgReading 2); EvPrint MsgNoText], Exit 1).
Proof.
  destruct (no_text_no_tables Toy.W "blank.pdf" 10 (Some "known.txt") "out"
              [inr (Some (String LF "  ")); inr None]
              (String LF "  " +:+ " "))
    as (Hpdf & _ & Hrun & _); [reflexivity..|].
  split; [exact Hpdf|].
  rewrite (Hrun (known_set Toy.W Toy.known_txt)); [|vm_compute; reflexivity].
  vm_compute. reflexivity.
Defined.

(** C10, as worded: with nothing but stopwords, digits and short tokens
    in the text, the run reaches the word cloud of the unknown words with
    an empty table, and the generator, which needs at least one word,
    raises. *)
Lemma empty_tables_run_raises :
  pdf_pages Toy.W "stop.pdf" = inr [inr (Some "To be or not to be, 42.")]
  ∧ extract_pages [inr (Some "To be or not to be, 42.")] ""
    = inr "To be or not to be, 42. "
  ∧ all_chars isspace "To be or not to be, 42. " = false
  ∧ clean_words Toy.W "To be or not to be, 42. " = []
  ∧ (main Toy.W "stop.pdf" 10 None "out").2 = Raise ValueError
  ∧ ¬ (main Toy.W "stop.pdf" 10 None "out").2 = Return ().
Proof.
  split_and!; try (vm_compute; reflexivity).
  vm_compute. discriminate.
Qed.

(** C10, amended.  When the extracted text is not all white space and the
    filter drops every token, [process_pdf] does not report the absence of
    text: it returns the empty lemma stream; the three tables built from
    it are empty, and once the known words are loaded the run goes on to
    the reporting step with them. *)
Theorem all_filtered_empty_tables (W : world) (pdf_path : string) (top_n : nat)
    (known_words_file : option string) (output_dir : string)
    (pages : list (exn + option string)) (text : string) :
  tagger_keeps_words W →
  pdf_pages W pdf_path = inr pages →
  extract_pages pages "" = inr text →
  all_chars isspace text = false →
  clean_words W text = [] →
  let lemmatizing :=
    [EvPrint (MsgProcessing pdf_path); EvPrint (MsgReading (length pages));
     EvPrint MsgLemmatizing] in
  let report := save_results W empty_tables top_n output_dir in
  process_pdf W pdf_path = (lemmatizing, Return (Some []))
  ∧ (∀ known_words, classify [] known_words = empty_tables)
  ∧ (∀ known_words,
       (load_known_words W known_words_file).2 = Return known_words →
       main W pdf_path top_n known_words_file output_dir
       = ((load_known_words W known_words_file).1 ++ lemmatizing ++ report.1,
          report.2)).
Proof.
  intros Htagger Hpages Htext Hspace Hwords. cbn zeta.
  pose proof (process_pdf_text W pdf_path pages text Hpages Htext) as Hpdf.
  rewrite Hspace, Hwords in Hpdf.
  assert (pos_tag W [] = []) as Htag.
  { apply (fmap_nil_inv fst). apply Htagger. }
  rewrite Htag in Hpdf. cbn [lemmatize_tagged map] in Hpdf.
  split_and!.
  - done.
  - done.
  - intros known Hload.
    rewrite (main_after_pdf W pdf_path top_n known_words_file output_dir _ _ Hpdf).
    by rewrite Hload.
Qed.

Lemma all_filtered_empty_tables_witness :
  process_pdf Toy.W "stop.pdf"
    = ([EvPrint (MsgProcessing "stop.pdf"); EvPrint (MsgReading 1);
        EvPrint MsgLemmatizing], Return (Some []))
  ∧ classify [] ∅ = empty_tables.
Proof.
  destruct (all_filtered_empty_tables Toy.W "stop.pdf" 10 None "out"
              [inr (Some "To be or not to be, 42.")] "To be or not to be, 42. ")
    as (Hpdf & Htables & _).
  - apply toy_tagger_keeps_words.
  - reflexivity.
  - reflexivity.
  - reflexivity.
  - vm_compute. reflexivity.
  - split; [exact Hpdf|apply Htables].
Defined.


(** * Further properties *)

(** ** The rows of the tables *)

Section TableFacts.

Import Counter.

Lemma items_get c k n : NoDup (keys c) → (k, n) ∈ items c → get c k = Some n.
Proof.
  unfold keys, items. induction c as [|[k' n'] c IH]; intros Hnd Hin.
  - by apply elem_of_nil in Hin.
  - cbn [fmap list_fmap fst] in Hnd. apply NoDup_cons in Hnd as [Hk' Hnd].
    cbn [get]. apply elem_of_cons in Hin as [Heq|Hin].
    + injection Heq as -> ->. by rewrite decide_True.
    + destruct (decide (k' = k)) as [->|Hne]; [|by apply IH].
      destruct Hk'. apply (list_elem_of_fmap_2' fst _ (k, n)); done.
Qed.

Lemma rows_of_list l k n :
  (k, n) ∈ items (of_list l) ↔ k ∈ l ∧ n = occurrences k l.
Proof.
  split.
  - intros Hin. apply items_get in Hin; [|apply NoDup_keys_of_list].
    split.
    + apply keys_of_list, get_keys. by rewrite Hin.
    + rewrite <- item_of_list. unfold item. by rewrite Hin.
  - intros [Hk ->]. apply get_items.
    apply keys_of_list, get_keys in Hk as [m Hm].
    rewrite Hm. f_equal. rewrite <- item_of_list. unfold item. by rewrite Hm.
Qed.

Lemma total_incr elem c : total (incr elem c) = S (total c).
Proof.
  unfold total. induction c as [|[k n] c IH]; [done|]. cbn [incr].
  destruct (decide (k = elem)); cbn [fmap list_fmap snd sum_list sum_list_with].
  - done.
  - cbn [fmap list_fmap] in IH. rewrite IH. lia.
Qed.

Lemma total_foldl l : ∀ c,
  total (foldl (λ c elem, incr elem c) c l) = total c + length l.
Proof.
  induction l as [|x l IH]; intros c; simpl; [lia|].
  rewrite IH, total_incr. lia.
Qed.

Lemma total_of_list l : total (of_list l) = length l.
Proof. unfold of_list. by rewrite total_foldl. Qed.

Lemma of_list_snoc l x : of_list (l ++ [x]) = incr x (of_list l).
Proof. unfold of_list. by rewrite foldl_app. Qed.

Lemma keys_first_occurrences l :
  keys (of_list l) = reverse (remove_dups (reverse l)).
Proof.
  induction l as [|x l IH] using rev_ind; [done|].
  rewrite of_list_snoc, keys_incr_order, reverse_snoc. cbn [remove_dups].
  destruct (decide (x ∈ keys (of_list l))) as [Hin|Hin];
    destruct (decide_rel elem_of x (reverse l)) as [Hin'|Hin'].
  - done.
  - destruct Hin'. apply elem_of_reverse. by apply keys_of_list.
  - destruct Hin. apply keys_of_list. by apply elem_of_reverse.
  - by rewrite reverse_cons, IH.
Qed.

End TableFacts.

(** X1. A row (word, count) is in the table of all words exactly when the
    word occurs in the lemma stream and the count is its number of
    occurrences; in the known table when moreover the word is a known
    word, in the unknown table when it is not. *)
Theorem table_rows (lemmatized_words : list string) (known_words : gset string)
    (k : string) (n : nat) :
  let t := classify lemmatized_words known_words in
  ((k, n) ∈ Counter.items (all_freq t)
     ↔ k ∈ lemmatized_words ∧ n = occurrences k lemmatized_words)
  ∧ ((k, n) ∈ Counter.items (excluded_freq t)
     ↔ k ∈ lemmatized_words ∧ k ∈ known_words
       ∧ n = occurrences k lemmatized_words)
  ∧ ((k, n) ∈ Counter.items (unknown_freq t)
     ↔ k ∈ lemmatized_words ∧ (k ∉ known_words)
       ∧ n = occurrences k lemmatized_words).
Proof.
  cbn zeta. unfold classify; cbn [all_freq excluded_freq unknown_freq].
  rewrite !rows_of_list, !list_elem_of_filter.
  rewrite (occurrences_filter (λ w, w ∈ known_words)).
  rewrite (occurrences_filter (λ w, w ∉ known_words)).
  split_and!; [done| |].
  - destruct (decide (k ∈ known_words)); [tauto|]. tauto.
  - destruct (decide (k ∉ known_words)); [tauto|]. tauto.
Qed.

(** X2. The counts of the table of all words add up to the length of the
    lemma stream, and to the sum of the totals of the known and the
    unknown table. *)
Theorem table_totals (lemmatized_words : list string) (known_words : gset string) :
  let t := classify lemmatized_words known_words in
  total (all_freq t) = length lemmatized_words
  ∧ total (excluded_freq t) + total (unknown_freq t) = total (all_freq t).
Proof.
  cbn zeta. unfold classify; cbn [all_freq excluded_freq unknown_freq].
  rewrite !total_of_list. split; [done|].
  rewrite <- List.length_app.
  apply Permutation_length, filter_app_complement.
Qed.

(** X3. The keys of a table come in the order in which the words first
    occur in the stream, each once; the table has as many rows as the
    stream has distinct words. *)
Theorem table_key_order (lemmatized_words : list string) (known_words : gset string) :
  let t := classify lemmatized_words known_words in
  Counter.keys (all_freq t) = reverse (remove_dups (reverse lemmatized_words))
  ∧ NoDup (Counter.keys (all_freq t))
  ∧ length (all_freq t) = size (list_to_set lemmatized_words : gset string)
  ∧ Counter.keys (unknown_freq t)
    = filter (λ w, w ∉ known_words) (Counter.keys (all_freq t))
  ∧ Counter.keys (excluded_freq t)
    = filter (λ w, w ∈ known_words) (Counter.keys (all_freq t)).
Proof.
  cbn zeta. unfold classify; cbn [all_freq excluded_freq unknown_freq].
  rewrite !keys_first_occurrences.
  assert (∀ (P : string → Prop) `{!∀ x, Decision (P x)} (l : list string),
            remove_dups (filter P l) = filter P (remove_dups l)) as Hrd.
  { intros P ? l. induction l as [|x l IH]; [done|].
    rewrite filter_cons. cbn [remove_dups].
    destruct (decide (P x)) as [HP|HP].
    - cbn [remove_dups].
      destruct (decide_rel elem_of x (filter P l)) as [Hin|Hin];
        destruct (decide_rel elem_of x l) as [Hin'|Hin'].
      + done.
      + apply list_elem_of_filter in Hin as [_ ?]. done.
      + destruct Hin. by apply list_elem_of_filter.
      + rewrite filter_cons, decide_True by done. by rewrite IH.
    - destruct (decide_rel elem_of x l); [done|].
      rewrite filter_cons, decide_False by done. done. }
  split_and!.
  - done.
  - rewrite reverse_Permutation. apply NoDup_remove_dups.
  - rewrite <- (length_fmap fst). fold (Counter.keys (Counter.of_list lemmatized_words)).
    rewrite keys_first_occurrences, length_reverse.
    rewrite <- (size_list_to_set (C:=gset string)) by apply NoDup_remove_dups.
    f_equal. apply set_eq. intros x.
    rewrite !elem_of_list_to_set, elem_of_remove_dups, elem_of_reverse. done.
  - by rewrite <- filter_reverse, Hrd, filter_reverse.
  - by rewrite <- filter_reverse, Hrd, filter_reverse.
Qed.


(** X4. When every lemma of the stream is a known word, the unknown table
    is empty and the known table is the table of all words. *)
Theorem all_known_words (lemmatized_words : list string) (known_words : gset string) :
  (∀ w, w ∈ lemmatized_words → w ∈ known_words) →
  unknown_freq (classify lemmatized_words known_words) = []
  ∧ excluded_freq (classify lemmatized_words known_words)
    = all_freq (classify lemmatized_words known_words).
Proof.
  intros Hknown. unfold classify; cbn [all_freq excluded_freq unknown_freq].
  assert (filter (λ w, w ∉ known_words) lemmatized_words = []) as ->.
  { induction lemmatized_words as [|x l IH]; [done|].
    rewrite filter_cons, decide_False.
    - apply IH. intros w Hw. apply Hknown. by right.
    - intros Hx. apply Hx, Hknown. by left. }
  assert (filter (λ w, w ∈ known_words) lemmatized_words = lemmatized_words) as ->.
  { induction lemmatized_words as [|x l IH]; [done|].
    rewrite filter_cons, decide_True by (apply Hknown; by left).
    f_equal. apply IH. intros w Hw. apply Hknown. by right. }
  done.
Qed.

Lemma all_known_words_witness :
  unknown_freq (classify ["cat"; "run"; "cat"] {[ "cat"; "run"; "fast" ]}) = []
  ∧ excluded_freq (classify ["cat"; "run"; "cat"] {[ "cat"; "run"; "fast" ]})
    = all_freq (classify ["cat"; "run"; "cat"] {[ "cat"; "run"; "fast" ]}).
Proof.
  apply (all_known_words ["cat"; "run"; "cat"] {[ "cat"; "run"; "fast" ]}).
  intros w Hw. repeat (apply elem_of_cons in Hw as [->|Hw]); set_solver.
Defined.

(** ** The rows that are reported *)

Section ReportFacts.

Import Counter.

Lemma insert_desc_perm x l : insert_desc x l ≡ₚ x :: l.
Proof.
  induction l as [|y l IH]; [done|]. cbn [insert_desc].
  destruct (x.2 <? y.2); [|done].
  rewrite IH. apply Permutation_swap.
Qed.

Lemma sorted_desc_perm l : sorted_desc l ≡ₚ l.
Proof.
  induction l as [|x l IH]; [done|]. cbn [sorted_desc].
  by rewrite insert_desc_perm, IH.
Qed.

Lemma insert_desc_sorted x l :
  StronglySorted (λ a b : string * nat, b.2 ≤ a.2) l →
  StronglySorted (λ a b : string * nat, b.2 ≤ a.2) (insert_desc x l).
Proof.
  induction l as [|y l IH]; intros Hs.
  - repeat constructor.
  - cbn [insert_desc]. apply StronglySorted_cons in Hs as [Hy Hs].
    destruct (x.2 <? y.2) eqn:Hlt.
    + apply Nat.ltb_lt in Hlt. apply StronglySorted_cons. split; [|by apply IH].
      rewrite insert_desc_perm. constructor; [lia|done].
    + apply Nat.ltb_ge in Hlt. apply StronglySorted_cons. split.
      * constructor; [done|]. eapply Forall_impl; [exact Hy|].
        intros z Hz. simpl in *. lia.
      * apply StronglySorted_cons. by split.
Qed.

Lemma sorted_desc_sorted l :
  StronglySorted (λ a b : string * nat, b.2 ≤ a.2) (sorted_desc l).
Proof.
  induction l as [|x l IH]; [constructor|]. by apply insert_desc_sorted.
Qed.

Lemma insert_desc_ties m x l :
  filter (λ kv : string * nat, kv.2 = m) (insert_desc x l)
  = filter (λ kv : string * nat, kv.2 = m) (x :: l).
Proof.
  induction l as [|y l IH]; [done|]. cbn [insert_desc].
  destruct (x.2 <? y.2) eqn:Hlt; [|done].
  apply Nat.ltb_lt in Hlt.
  rewrite filter_cons, IH, !filter_cons.
  destruct (decide (y.2 = m)), (decide (x.2 = m)); try done. lia.
Qed.

Lemma sorted_desc_ties m l :
  filter (λ kv : string * nat, kv.2 = m) (sorted_desc l)
  = filter (λ kv : string * nat, kv.2 = m) l.
Proof.
  induction l as [|x l IH]; [done|]. cbn [sorted_desc].
  by rewrite insert_desc_ties, !filter_cons, IH.
Qed.

(** [most_common n] gives the [n] rows of largest count, largest first,
    rows of equal count in the order of the table. *)
Lemma most_common_top n c :
  length (most_common n c) = min n (length c)
  ∧ StronglySorted (λ a b : string * nat, b.2 ≤ a.2) (most_common n c)
  ∧ (∃ rest, most_common n c ++ rest ≡ₚ items c
             ∧ ∀ x y, x ∈ most_common n c → y ∈ rest → y.2 ≤ x.2)
  ∧ (∀ m, filter (λ kv : string * nat, kv.2 = m) (most_common n c)
            `prefix_of` filter (λ kv : string * nat, kv.2 = m) (items c)).
Proof.
  unfold most_common, items.
  pose proof (sorted_desc_sorted c) as Hs.
  rewrite <- (take_drop n (sorted_desc c)) in Hs.
  split_and!.
  - rewrite length_take. by rewrite (Permutation_length (sorted_desc_perm c)).
  - by apply StronglySorted_app_1_l in Hs.
  - exists (drop n (sorted_desc c)). split.
    + rewrite take_drop. apply sorted_desc_perm.
    + intros x y Hx Hy. by apply (StronglySorted_app_1_elem_of _ _ _ x y) in Hs.
  - intros m. rewrite <- (sorted_desc_ties m c).
    rewrite <- (take_drop n (sorted_desc c)) at 2.
    rewrite filter_app. by apply prefix_app_r.
Qed.

End ReportFacts.

(** X5. With a cutoff, [save_word_freq_csv] writes, when the file can be
    opened, the [top_n] rows of largest count (all rows when there are
    fewer), largest count first and rows of equal count in the order of
    the table; no other row has a larger count than a written one. *)
Theorem save_word_freq_csv_top (W : world) (word_freq : Counter.t)
    (output_path : string) (top_n : nat) :
  can_write W output_path = true →
  ∃ rows,
    save_word_freq_csv W word_freq output_path (Some top_n)
    = ([EvPrint (MsgSavingTop top_n output_path); EvCsv output_path rows],
       Return ())
    ∧ length rows = min top_n (length word_freq)
    ∧ StronglySorted (λ a b : string * nat, b.2 ≤ a.2) rows
    ∧ (∃ rest, rows ++ rest ≡ₚ Counter.items word_freq
               ∧ ∀ x y, x ∈ rows → y ∈ rest → y.2 ≤ x.2)
    ∧ (∀ m, filter (λ kv : string * nat, kv.2 = m) rows
              `prefix_of` filter (λ kv : string * nat, kv.2 = m)
                            (Counter.items word_freq)).
Proof.
  intros Hwrite. exists (Counter.most_common top_n word_freq). split.
  - unfold save_word_freq_csv. rewrite Hwrite. reflexivity.
  - apply most_common_top.
Qed.

Lemma save_word_freq_csv_top_witness :
  ∃ rows,
    save_word_freq_csv Toy.W [("a", 1); ("b", 3); ("c", 3); ("d", 2)] "top.csv"
      (Some 2)
    = ([EvPrint (MsgSavingTop 2 "top.csv"); EvCsv "top.csv" rows], Return ())
    ∧ length rows = 2.
Proof.
  destruct (save_word_freq_csv_top Toy.W [("a", 1); ("b", 3); ("c", 3); ("d", 2)]
              "top.csv" 2) as (rows & Hrun & Hlen & _); [reflexivity|].
  exists rows. split; [exact Hrun|exact Hlen].
Defined.

(** X6. The reporting step ends by returning or by raising [OSError] or
    [ValueError], never through [sys.exit].  When it returns, it has
    written, in this order: the CSV of the [top_n] unknown words, their
    word cloud (the same rows), the CSV of all the known words, the CSV
    of all the words, the word cloud of the [top_n] words. *)
Theorem save_results_outcome (W : world) (t : tables) (top_n : nat)
    (output_dir : string) :
  let report := save_results W t top_n output_dir in
  (report.2 = Return () ∨ report.2 = Raise OSError ∨ report.2 = Raise ValueError)
  ∧ (report.2 = Return () →
     filter (λ e, writes_file e) report.1 =
       [EvCsv (path_join output_dir ("top" +:+ pretty top_n +:+ "_unknown_words.csv"))
          (Counter.most_common top_n (unknown_freq t));
        EvImage
          (path_join output_dir
             ("wordcloud_top" +:+ pretty top_n +:+ "_unknown_words.png"))
          (Counter.most_common top_n (unknown_freq t));
        EvCsv (path_join output_dir "excluded_known_words.csv")
          (Counter.items (excluded_freq t));
        EvCsv (path_join output_dir "all_words.csv")
          (Counter.items (all_freq t));
        EvImage
          (path_join output_dir
             ("wordcloud_top" +:+ pretty top_n +:+ "_all_words.png"))
          (Counter.most_common top_n (all_freq t))]).
Proof.
  cbn zeta. unfold save_results, save_word_freq_csv, save_wordcloud.
  generalize (path_join output_dir ("top" +:+ pretty top_n +:+ "_unknown_words.csv")).
  generalize (path_join output_dir
                ("wordcloud_top" +:+ pretty top_n +:+ "_unknown_words.png")).
  generalize (path_join output_dir "excluded_known_words.csv").
  generalize (path_join output_dir "all_words.csv").
  generalize (path_join output_dir
                ("wordcloud_top" +:+ pretty top_n +:+ "_all_words.png")).
  intros p5 p4 p3 p2 p1.
  generalize (Counter.most_common top_n (unknown_freq t)).
  generalize (Counter.most_common top_n (all_freq t)).
  intros top_all top_unknown.
  unfold mbind, io_bind, emit, perform, raise.
  destruct (can_write W p1); cbn [fst snd]; [|split; [auto|done]].
  destruct (cloud_accepts W top_unknown); cbn [fst snd]; [|split; [auto|done]].
  destruct (can_write W p2); cbn [fst snd]; [|split; [auto|done]].
  destruct (can_write W p3); cbn [fst snd]; [|split; [auto|done]].
  destruct (can_write W p4); cbn [fst snd]; [|split; [auto|done]].
  destruct (cloud_accepts W top_all); cbn [fst snd]; [|split; [auto|done]].
  destruct (can_write W p5); cbn [fst snd]; [|split; [auto|done]].
  split; [auto|]. intros _. reflexivity.
Qed.

Lemma save_results_outcome_witness :
  filter (λ e, writes_file e)
    (save_results Toy.W (classify ["cat"; "fast"; "cat"] {[ "cat" ]}) 1 "out").1
  = [EvCsv "out/top1_unknown_words.csv" [("fast", 1)];
     EvImage "out/wordcloud_top1_unknown_words.png" [("fast", 1)];
     EvCsv "out/excluded_known_words.csv" [("cat", 2)];
     EvCsv "out/all_words.csv" [("cat", 2); ("fast", 1)];
     EvImage "out/wordcloud_top1_all_words.png" [("cat", 2)]].
Proof.
  destruct (save_results_outcome Toy.W
              (classify ["cat"; "fast"; "cat"] {[ "cat" ]}) 1 "out") as [_ Hfiles].
  rewrite Hfiles; [|vm_compute; reflexivity].
  vm_compute. reflexivity.
Defined.

(** X7. When the unknown table is empty (no lemma, or only known words)
    and the word-cloud generator refuses an empty mapping, the reporting
    step writes the CSV of the unknown words without a row and then
    raises [ValueError]: the other files are not written. *)
Theorem no_unknown_words_raises (W : world) (lemmatized_words : list string)
    (known_words : gset string) (top_n : nat) (output_dir : string) :
  (∀ w, w ∈ lemmatized_words → w ∈ known_words) →
  cloud_accepts W [] = false →
  can_write W (path_join output_dir ("top" +:+ pretty top_n +:+ "_unknown_words.csv"))
    = true →
  save_results W (classify lemmatized_words known_words) top_n output_dir
  = ([EvPrint (MsgSavingTop top_n
                 (path_join output_dir
                    ("top" +:+ pretty top_n +:+ "_unknown_words.csv")));
      EvCsv (path_join output_dir ("top" +:+ pretty top_n +:+ "_unknown_words.csv")) [];
      EvPrint (MsgGenerating top_n)],
     Raise ValueError).
Proof.
  intros Hknown Hcloud Hwrite.
  assert (unknown_freq (classify lemmatized_words known_words) = []) as Hunknown.
  { unfold classify; cbn [unknown_freq].
    replace (filter (λ w, w ∉ known_words) lemmatized_words) with (@nil string);
      [done|].
    symmetry. induction lemmatized_words as [|x l IH]; [done|].
    rewrite filter_cons, decide_False.
    - apply IH. intros w Hw. apply Hknown. by right.
    - intros Hx. apply Hx, Hknown. by left. }
  unfold save_results, save_word_freq_csv, save_wordcloud.
  rewrite Hunknown.
  assert (Counter.most_common top_n [] = []) as -> by apply take_nil.
  rewrite Hwrite, Hcloud. reflexivity.
Qed.

Lemma no_unknown_words_raises_witness :
  save_results Toy.W (classify ["cat"; "cat"] {[ "cat" ]}) 5 "out"
  = ([EvPrint (MsgSavingTop 5 "out/top5_unknown_words.csv");
      EvCsv "out/top5_unknown_words.csv" []; EvPrint (MsgGenerating 5)],
     Raise ValueError).
Proof.
  apply (no_unknown_words_raises Toy.W ["cat"; "cat"] {[ "cat" ]} 5 "out").
  - intros w Hw. repeat (apply elem_of_cons in Hw as [->|Hw]); set_solver.
  - reflexivity.
  - reflexivity.
Defined.

(** ** Reading the PDF *)

Section PdfFacts.

Variable W : world.

Lemma app_assoc_string (a b c : string) : (a +:+ b) +:+ c = a +:+ (b +:+ c).
Proof. induction a as [|x a IH]; [done|]. by rewrite !app_cons, IH. Qed.

Lemma app_empty_r (a : string) : a +:+ "" = a.
Proof. induction a as [|x a IH]; [done|]. by rewrite app_cons, IH. Qed.

Lemma all_chars_app f (a b : string) :
  all_chars f (a +:+ b) = all_chars f a && all_chars f b.
Proof.
  induction a as [|x a IH]; [done|]. rewrite app_cons. simpl.
  by rewrite IH, andb_assoc.
Qed.

Lemma page_texts_skip (t : option string) texts :
  default "" t = "" → page_texts (t :: texts) = page_texts texts.
Proof.
  unfold page_texts. destruct t as [t|]; [|done]. simpl. intros ->.
  change (omap id (Some "" :: texts)) with ("" :: omap id texts).
  rewrite filter_cons, decide_False; [done|]. by intros [].
Qed.

Lemma page_texts_keep (t : string) texts :
  t ≠ "" → page_texts (Some t :: texts) = t :: page_texts texts.
Proof.
  unfold page_texts. intros Ht.
  change (omap id (Some t :: texts)) with (t :: omap id texts).
  by rewrite filter_cons, decide_True.
Qed.

Lemma extract_pages_texts (texts : list (option string)) : ∀ acc,
  extract_pages (inr <$> texts) acc
  = inr (acc +:+ foldr (λ t r, t +:+ " " +:+ r) "" (page_texts texts)).
Proof.
  induction texts as [|t texts IH]; intros acc.
  - simpl. by rewrite app_empty_r.
  - cbn [fmap list_fmap extract_pages]. rewrite IH.
    destruct (default "" t) as [|c s] eqn:Ht.
    + by rewrite page_texts_skip.
    + destruct t as [t|]; [|done]. simpl in Ht. subst t.
      rewrite page_texts_keep by done. cbn [truthy foldr].
      by rewrite !app_assoc_string.
Qed.

Lemma extract_pages_fails (texts : list (option string)) e rest : ∀ acc,
  extract_pages ((inr <$> texts) ++ inl e :: rest) acc = inl e.
Proof.
  induction texts as [|t texts IH]; intros acc; [done|].
  cbn [fmap list_fmap app extract_pages]. apply IH.
Qed.

Lemma process_pdf_fails pdf_path e :
  pdf_pages W pdf_path = inl e →
  process_pdf W pdf_path
  = ([EvPrint (MsgProcessing pdf_path); EvPrint (MsgErrorReading pdf_path e)],
     Return None).
Proof. intros Hopen. unfold process_pdf. by rewrite Hopen. Qed.

Lemma process_pdf_page_fails pdf_path pages e :
  pdf_pages W pdf_path = inr pages →
  extract_pages pages "" = inl e →
  process_pdf W pdf_path
  = ([EvPrint (MsgProcessing pdf_path); EvPrint (MsgReading (length pages));
      EvPrint (MsgErrorReading pdf_path e)], Return None).
Proof. intros Hopen Hpages. unfold process_pdf. by rewrite Hopen, Hpages. Qed.

End PdfFacts.

(** X9. When the PDF cannot be opened, or the extraction of a page
    raises, [process_pdf] prints the error and returns [None]; [main]
    then leaves through [sys.exit(1)] once the known words are loaded, and
    no file is written. *)
Theorem extraction_failure_exits (W : world) (pdf_path : string) (top_n : nat)
    (known_words_file : option string) (output_dir : string) (e : exn)
    (known_words : gset string) :
  pdf_pages W pdf_path = inl e
  ∨ (∃ pages, pdf_pages W pdf_path = inr pages
              ∧ extract_pages pages "" = inl e) →
  (load_known_words W known_words_file).2 = Return known_words →
  let run := main W pdf_path top_n known_words_file output_dir in
  (∃ log, process_pdf W pdf_path
          = (log ++ [EvPrint (MsgErrorReading pdf_path e)], Return None))
  ∧ run.2 = Exit 1
  ∧ Forall (λ e, writes_file e = false) run.1.
Proof.
  intros Hfail Hload. cbn zeta.
  assert (∃ log, process_pdf W pdf_path
                 = (log ++ [EvPrint (MsgErrorReading pdf_path e)], Return None)
                 ∧ Forall (λ e, writes_file e = false) log) as (log & Hpdf & Hlog).
  { destruct Hfail as [Hopen|(pages & Hopen & Hpages)].
    - rewrite (process_pdf_fails W pdf_path e Hopen).
      exists [EvPrint (MsgProcessing pdf_path)]. split; [done|].
      by repeat constructor.
    - rewrite (process_pdf_page_fails W pdf_path pages e Hopen Hpages).
      exists [EvPrint (MsgProcessing pdf_path); EvPrint (MsgReading (length pages))].
      split; [done|]. by repeat constructor. }
  split; [by exists log|].
  rewrite (main_after_pdf W pdf_path top_n known_words_file output_dir _ _ Hpdf).
  rewrite Hload. cbn [fst snd]. split; [done|].
  destruct (load_known_words_log W known_words_file) as [Hloader _].
  rewrite !Forall_app. split_and!; [|done|by repeat constructor].
  eapply Forall_impl; [exact Hloader|]. by intros ev (m & -> & _).
Qed.

Lemma extraction_failure_exits_witness :
  (main Toy.W "missing.pdf" 10 None "out").2 = Exit 1.
Proof.
  destruct (extraction_failure_exits Toy.W "missing.pdf" 10 None "out" PdfError ∅)
    as (_ & Hexit & _); [left; reflexivity|reflexivity|exact Hexit].
Defined.

(** X10. When every page extracts, the text handed to the tokenizer is
    made of the page texts that are neither [None] nor empty, in page
    order, each followed by one space; the first page that raises makes
    the whole extraction fail with its exception. *)
Theorem extracted_text (texts : list (option string)) (e : exn)
    (rest : list (exn + option string)) :
  extract_pages (inr <$> texts) ""
  = inr (foldr (λ t r, t +:+ " " +:+ r) "" (page_texts texts))
  ∧ extract_pages ((inr <$> texts) ++ inl e :: rest) "" = inl e.
Proof.
  split; [|apply extract_pages_fails].
  by rewrite extract_pages_texts, app_empty_l.
Qed.

(** X11. A PDF whose pages all extract is reported as having no text
    exactly when every page text is [None], empty or white space. *)
Theorem no_text_criterion (W : world) (pdf_path : string)
    (texts : list (option string)) :
  pdf_pages W pdf_path = inr (inr <$> texts) →
  (process_pdf W pdf_path).2 = Return None
  ↔ Forall (λ t, all_chars isspace (default "" t) = true) texts.
Proof.
  intros Hopen.
  rewrite (process_pdf_text W pdf_path _ _ Hopen (extract_pages_texts texts "")).
  rewrite app_empty_l.
  assert (all_chars isspace (foldr (λ t r, t +:+ " " +:+ r) "" (page_texts texts))
          = true ↔ Forall (λ t, all_chars isspace (default "" t) = true) texts)
    as <-.
  { clear Hopen. induction texts as [|t texts IH].
    - split; [constructor|done].
    - rewrite Forall_cons, <- IH.
      destruct (default "" t) as [|c s] eqn:Ht.
      + rewrite page_texts_skip by done. simpl. tauto.
      + destruct t as [t|]; [|done]. simpl in Ht. subst t.
        rewrite page_texts_keep by done. cbn [foldr].
        rewrite !all_chars_app, !andb_true_iff. simpl. tauto. }
  destruct (all_chars isspace _); cbn [snd]; split; done.
Qed.

Lemma no_text_criterion_witness :
  (process_pdf Toy.W "blank.pdf").2 = Return None
  ↔ Forall (λ t, all_chars isspace (default "" t) = true)
      [Some (String LF "  "); None].
Proof.
  apply (no_text_criterion Toy.W "blank.pdf" [Some (String LF "  "); None]).
  reflexivity.
Defined.

(** X12. The known words are loaded before the PDF is opened: when the
    known-words file exists and reading it raises, [main] raises the same
    exception, having printed nothing and read no PDF. *)
Theorem unreadable_known_words_stops (W : world) (pdf_path : string)
    (top_n : nat) (p : string) (output_dir : string) (e : exn) :
  p ≠ "" → isfile W p = true → read_text W p = inl e →
  main W pdf_path top_n (Some p) output_dir = ([], Raise e).
Proof.
  intros Hp Hfile Hread. unfold main.
  rewrite load_known_words_eq.
  rewrite decide_True by done. rewrite Hread. reflexivity.
Qed.

Lemma unreadable_known_words_stops_witness :
  main Toy.W "cats.pdf" 10 (Some "locked.txt") "out" = ([], Raise OSError).
Proof.
  apply (unreadable_known_words_stops Toy.W "cats.pdf" 10 "locked.txt" "out" OSError);
    [discriminate|reflexivity|reflexivity].
Defined.

(** ** The words that are kept *)

Section TokenFacts.

Lemma lower_char_not_upper c : isupper_char (lower_char c) = false.
Proof. by destruct c as [[] [] [] [] [] [] [] []]. Qed.

Lemma word_char_not_space c : is_word c = true → isspace c = false.
Proof. by destruct c as [[] [] [] [] [] [] [] []]. Qed.

Lemma lower_app (a b : string) : lower (a +:+ b) = lower a +:+ lower b.
Proof. induction a as [|c a IH]; [done|]. rewrite app_cons. simpl. by rewrite IH. Qed.

Lemma lower_no_upper s : all_chars (λ c, negb (isupper_char c)) (lower s) = true.
Proof.
  induction s as [|c s IH]; [done|]. simpl.
  by rewrite lower_char_not_upper, IH.
Qed.

Lemma lower_fixed s :
  all_chars (λ c, negb (isupper_char c)) s = true → lower s = s.
Proof.
  induction s as [|c s IH]; [done|]. simpl.
  intros [Hc Hs]%andb_prop. rewrite IH by done.
  unfold lower_char. by destruct (isupper_char c).
Qed.

Lemma all_chars_impl (f g : ascii → bool) s :
  (∀ c, f c = true → g c = true) →
  all_chars f s = true → all_chars g s = true.
Proof.
  intros Hfg. induction s as [|c s IH]; [done|]. simpl.
  intros [Hc Hs]%andb_prop. by rewrite (Hfg c Hc), IH.
Qed.

(** A run is not empty, is made of word characters, and its characters
    are characters of the text. *)
Lemma runs_tokens s l :
  maximal_runs s l →
  ∀ w, w ∈ l →
    w ≠ "" ∧ all_chars is_word w = true
    ∧ ∀ f, all_chars f s = true → all_chars f w = true.
Proof.
  induction 1 as [|c s l Hc Hruns IH|w' rest l Hne Hall Hrest Hruns IH];
    intros w Hw.
  - by apply elem_of_nil in Hw.
  - destruct (IH w Hw) as (? & ? & Hf). split_and!; [done..|].
    intros f [_ Hs]%andb_prop. by apply Hf.
  - apply elem_of_cons in Hw as [->|Hw].
    + split_and!; [done..|]. intros f. rewrite all_chars_app.
      by intros [? _]%andb_prop.
    + destruct (IH w Hw) as (? & ? & Hf). split_and!; [done..|].
      intros f. rewrite all_chars_app. intros [_ ?]%andb_prop. by apply Hf.
Qed.

Lemma breaks_to_spaces_app (a b : string) :
  breaks_to_spaces (a +:+ b) = breaks_to_spaces a +:+ breaks_to_spaces b.
Proof. induction a as [|c a IH]; [done|]. rewrite app_cons. simpl. by rewrite IH. Qed.

Lemma join_line_wraps_wrap_go (a b : string) :
  join_line_wraps (a +:+ String "-" (String LF b))
  = join_line_wraps a +:+ join_line_wraps b
  ∧ ∀ c, join_line_wraps (String c a +:+ String "-" (String LF b))
         = join_line_wraps (String c a) +:+ join_line_wraps b.
Proof.
  induction a as [|x a [IH1 IH2]].
  - split; [done|]. intros c. rewrite app_cons, app_empty_l.
    rewrite join_line_wraps_two.
    rewrite decide_False by (by intros [_ ?]).
    by rewrite join_line_wraps_two, decide_True.
  - split; [apply IH2|]. intros c. rewrite !app_cons, !join_line_wraps_two.
    destruct (decide (c = "-"%char ∧ x = LF)) as [?|?].
    + apply IH1.
    + rewrite <- app_cons, IH2. by rewrite app_cons.
Qed.

Lemma joined_text_eq text :
  joined_text text = breaks_to_spaces (join_line_wraps text).
Proof. unfold joined_text. by rewrite replace_hyphen_break, replace_break. Qed.

End TokenFacts.

(** X13. Every word kept by the tokenizer is in lower case, is made of
    word characters only (so it holds no white space and no hyphen), has
    at least three characters, is not a stopword and is not made of
    digits only. *)
Theorem kept_words_shape (W : world) (text w : string) :
  w ∈ clean_words W text →
  all_chars is_word w = true
  ∧ lower w = w
  ∧ all_chars (λ c, negb (isspace c) && negb (bool_decide (c = "-"%char))) w = true
  ∧ 3 ≤ String.length w
  ∧ (w ∉ stop_words W)
  ∧ isdigit w = false.
Proof.
  unfold clean_words. intros [(Hstop & Hdigit & Hlen) Hw]%list_elem_of_filter.
  destruct (runs_tokens _ _ (findall_words_runs _) w Hw) as (_ & Hword & Hchars).
  split_and!; [done| | |done|done|by destruct (isdigit w)].
  - apply lower_fixed, Hchars, lower_no_upper.
  - revert Hword. apply all_chars_impl. intros c Hc.
    rewrite (word_char_not_space c Hc). simpl.
    destruct (decide (c = "-"%char)) as [->|Hne]; [done|].
    by rewrite bool_decide_eq_false_2.
Qed.

Lemma kept_words_shape_witness :
  all_chars is_word "cats" = true ∧ lower "cats" = "cats".
Proof.
  destruct (kept_words_shape Toy.W "The Cats are running." "cats")
    as (Hword & Hlower & _).
  - vm_compute. left.
  - split; [exact Hword|exact Hlower].
Defined.

(** X15. A hyphen followed by a line break between two pieces of text
    disappears: the text the words are taken from is the two pieces, each
    treated on its own, put end to end. *)
Theorem wrapped_line_joined (W : world) (a b : string) :
  joined_text (a +:+ String "-" (String LF b)) = joined_text a +:+ joined_text b
  ∧ clean_words W (a +:+ String "-" (String LF b))
    = filter (λ w, (w ∉ stop_words W) ∧ (¬ isdigit w) ∧ 3 ≤ String.length w)
        (Re.findall_words (lower (joined_text a +:+ joined_text b))).
Proof.
  assert (joined_text (a +:+ String "-" (String LF b))
          = joined_text a +:+ joined_text b) as Hjoin.
  { rewrite !joined_text_eq.
    destruct (join_line_wraps_wrap_go a b) as [-> _].
    apply breaks_to_spaces_app. }
  split; [done|]. by rewrite <- Hjoin.
Qed.

(** X16. With a tagger that answers with the words it was given,
    [clean_and_lemmatize] returns one lemma for each kept word, in the
    order of the words: the lemma at a position is the normal form of the
    word at that position in the category of the tag the tagger gave to
    that word. *)
Theorem one_lemma_per_word (W : world) (text : string) :
  tagger_keeps_words W →
  ∃ lemmatized_words,
    clean_and_lemmatize W text
    = ([EvPrint MsgLemmatizing], Return lemmatized_words)
    ∧ length lemmatized_words = length (clean_words W text)
    ∧ ∀ i w, clean_words W text !! i = Some w →
        ∃ tag,
          pos_tag W (clean_words W text) !! i = Some (w, tag)
          ∧ lemmatized_words !! i
            = Some (normalize_word W w (Some (get_wordnet_pos tag))).
Proof.
  intros Htagger. rewrite clean_and_lemmatize_eq. eexists. split; [done|].
  specialize (Htagger (clean_words W text)).
  generalize dependent (clean_words W text). intros words.
  generalize (pos_tag W words). intros tagged <-.
  unfold lemmatize_tagged. split.
  - by rewrite length_map, length_fmap.
  - induction tagged as [|[w' tag'] tagged IH]; intros i w Hw.
    + by destruct i.
    + destruct i as [|i].
      * injection Hw as <-. by exists tag'.
      * apply (IH i w Hw).
Qed.

Lemma one_lemma_per_word_witness :
  ∃ lemmatized_words,
    clean_and_lemmatize Toy.W "The cats are running fast"
    = ([EvPrint MsgLemmatizing], Return lemmatized_words)
    ∧ lemmatized_words !! 1 = Some "run".
Proof.
  destruct (one_lemma_per_word Toy.W "The cats are running fast"
              toy_tagger_keeps_words) as (l & Hrun & _ & Hat).
  exists l. split; [exact Hrun|].
  destruct (Hat 1 "running") as (tag & Htag & ->); [vm_compute; reflexivity|].
  vm_compute in Htag. injection Htag as <-. vm_compute. reflexivity.
Defined.

(** ** The known words and the words of the text *)

Section KnownFacts.

Variable W : world.

Lemma universal_newlines_space_go s :
  (all_chars isspace s = true → all_chars isspace (universal_newlines s) = true)
  ∧ ∀ c, all_chars isspace (String c s) = true →
         all_chars isspace (universal_newlines (String c s)) = true.
Proof.
  induction s as [|a r [IH1 IH2]].
  - split; [done|]. intros c. cbn [universal_newlines].
    destruct (decide (c = CR)); [done|]. done.
  - split; [apply IH2|]. intros c Hall.
    change (all_chars isspace (String c (String a r)))
      with (isspace c && all_chars isspace (String a r)) in Hall.
    apply andb_prop in Hall as [Hc Hall].
    cbn [universal_newlines].
    destruct (decide (c = CR)) as [->|Hne].
    + destruct (decide (a = LF)) as [->|Hne'].
      * change (isspace LF && all_chars isspace (universal_newlines r) = true).
        simpl in Hall. by rewrite IH1.
      * change (isspace LF
                && all_chars isspace (universal_newlines (String a r)) = true).
        by rewrite IH2.
    + change (isspace c
              && all_chars isspace (universal_newlines (String a r)) = true).
      by rewrite Hc, IH2.
Qed.

Lemma split_lines_space s :
  all_chars isspace s = true → Forall (λ line, all_chars isspace line = true) (split_lines s).
Proof.
  induction s as [|c s IH]; [constructor|].
  intros [Hc Hs]%andb_prop. specialize (IH Hs). cbn [split_lines].
  destruct (decide (c = LF)) as [->|Hne].
  - constructor; [done|done].
  - destruct (split_lines s) as [|line lines]; constructor.
    + simpl. by rewrite Hc.
    + constructor.
    + apply Forall_cons in IH as [Hline _]. simpl. by rewrite Hc, Hline.
    + by apply Forall_cons in IH as [_ ?].
Qed.

Lemma known_set_blank content :
  all_chars isspace content = true → known_set W content = ∅.
Proof.
  intros Hblank. apply elem_of_equiv_empty_L. intros k.
  rewrite elem_of_known_set. intros (line & Hline & Hw & _).
  apply universal_newlines_space_go, split_lines_space in Hblank.
  rewrite Forall_forall in Hblank. specialize (Hblank line Hline).
  apply strip_empty in Hblank. rewrite Hblank in Hw. done.
Qed.

Lemma item_unknown_known lemmatized_words (known_words : gset string) k :
  k ∈ known_words →
  Counter.item (unknown_freq (classify lemmatized_words known_words)) k = 0.
Proof.
  intros Hk. unfold classify; cbn [unknown_freq].
  rewrite item_of_list, (occurrences_filter (λ w, w ∉ known_words)).
  by rewrite decide_False by (intros Hn; by apply Hn).
Qed.

End KnownFacts.

(** X17. A known-words file that exists and holds only white space (or
    nothing) gives the empty set; the loader then reports zero words
    loaded, not a missing file. *)
Theorem blank_known_words_file (W : world) (p content : string) :
  p ≠ "" → isfile W p = true → read_text W p = inr content →
  all_chars isspace content = true →
  load_known_words W (Some p) = ([EvPrint (MsgLoaded 0 p)], Return ∅).
Proof.
  intros Hp Hfile Hread Hblank.
  rewrite load_known_words_eq, decide_True by done.
  rewrite Hread, known_set_blank by done. by rewrite size_empty.
Qed.

Lemma blank_known_words_file_witness :
  load_known_words
    {| stop_words := ∅; lemmatize := λ w _, w; morphy := λ _ _, None;
       pos_tag := λ ws, (λ w, (w, "NN")) <$> ws;
       isfile := λ _, true;
       read_text := λ _, inr (String LF (String CR " "));
       pdf_pages := λ _, inl PdfError; can_write := λ _, true;
       cloud_accepts := λ _, true |}
    (Some "blank.txt")
  = ([EvPrint (MsgLoaded 0 "blank.txt")], Return ∅).
Proof.
  apply (blank_known_words_file _ "blank.txt" (String LF (String CR " ")));
    [discriminate|reflexivity|reflexivity|reflexivity].
Defined.

(** X18. A word listed in the known-words file is matched by a word of
    the text tagged as a noun (or with a tag outside J, V, R): for a line
    whose stripped lower-case form is [w], the lemma of the word [w] with
    such a tag is in the known set, and it is never counted as unknown. *)
Theorem known_noun_matches (W : world) (content line tag : string)
    (lemmatized_words : list string) :
  line ∈ file_lines content →
  lower (strip line) ≠ "" →
  get_wordnet_pos tag = NOUN →
  let lemma := normalize_word W (lower (strip line)) (Some (get_wordnet_pos tag)) in
  lemma ∈ known_set W content
  ∧ Counter.item
      (unknown_freq (classify lemmatized_words (known_set W content))) lemma = 0.
Proof.
  intros Hline Hw Htag. cbn zeta. rewrite Htag.
  assert (normalize_word W (lower (strip line)) (Some NOUN) ∈ known_set W content)
    as Hin.
  { apply elem_of_known_set. by exists line. }
  split; [done|]. by apply item_unknown_known.
Qed.

Lemma known_noun_matches_witness :
  "cat" ∈ known_set Toy.W Toy.known_txt
  ∧ Counter.item
      (unknown_freq (classify ["cat"; "fast"; "cat"] (known_set Toy.W Toy.known_txt)))
      "cat" = 0.
Proof.
  apply (known_noun_matches Toy.W Toy.known_txt ("Cats" +:+ String LF "") "NNS"
           ["cat"; "fast"; "cat"]).
  - vm_compute. left.
  - vm_compute. discriminate.
  - reflexivity.
Defined.

(** X19. The set the loader returns depends only on which words the
    lines of the file give once stripped and put in lower case: two files
    whose lines give the same words, in any order, with any repetitions,
    white space or letter case, load as the same set, and the same number
    of words is reported. *)
Theorem known_set_lines (W : world) (p1 p2 content1 content2 : string) :
  p1 ≠ "" → p2 ≠ "" →
  isfile W p1 = true → isfile W p2 = true →
  read_text W p1 = inr content1 → read_text W p2 = inr content2 →
  (∀ w, w ∈ map (λ line, lower (strip line)) (file_lines content1)
        ↔ w ∈ map (λ line, lower (strip line)) (file_lines content2)) →
  ∃ known_words,
    load_known_words W (Some p1)
    = ([EvPrint (MsgLoaded (size known_words) p1)], Return known_words)
    ∧ load_known_words W (Some p2)
      = ([EvPrint (MsgLoaded (size known_words) p2)], Return known_words).
Proof.
  intros Hp1 Hp2 Hfile1 Hfile2 Hread1 Hread2 Hwords.
  exists (known_set W content1).
  rewrite !load_known_words_eq, !decide_True by done.
  rewrite Hread1, Hread2. split; [done|].
  assert (known_set W content2 = known_set W content1) as ->; [|done].
  apply set_eq. intros k. rewrite !elem_of_known_set.
  split; intros (line & Hline & Hw & ->).
  - assert (lower (strip line)
            ∈ map (λ line, lower (strip line)) (file_lines content1))
      as (line' & Heq & Hline')%list_elem_of_fmap_1.
    { apply Hwords. by apply (list_elem_of_fmap_2 (λ line, lower (strip line))). }
    exists line'. rewrite <- Heq. done.
  - assert (lower (strip line)
            ∈ map (λ line, lower (strip line)) (file_lines content2))
      as (line' & Heq & Hline')%list_elem_of_fmap_1.
    { apply Hwords. by apply (list_elem_of_fmap_2 (λ line, lower (strip line))). }
    exists line'. rewrite <- Heq. done.
Qed.

Lemma known_set_lines_witness :
  ∃ known_words,
    load_known_words toy_world_lists (Some "a.txt")
    = ([EvPrint (MsgLoaded (size known_words) "a.txt")], Return known_words)
    ∧ load_known_words toy_world_lists (Some "b.txt")
      = ([EvPrint (MsgLoaded (size known_words) "b.txt")], Return known_words).
Proof.
  apply (known_set_lines toy_world_lists "a.txt" "b.txt"
           ("cat" +:+ String LF "run")
           ("Run " +:+ String LF "cat" +:+ String LF "CAT" +:+ String LF ""));
    [discriminate|discriminate|reflexivity|reflexivity|reflexivity|reflexivity|].
  intros w.
  change (map (λ line, lower (strip line)) (file_lines ("cat" +:+ String LF "run")))
    with ["cat"; "run"].
  change (map (λ line, lower (strip line))
            (file_lines ("Run " +:+ String LF "cat" +:+ String LF "CAT" +:+ String LF "")))
    with ["run"; "cat"; "cat"].
  rewrite !elem_of_cons, !elem_of_nil. tauto.
Defined.

(** ** The arguments and the output directory *)

Section SetupFacts.

Lemma rfind_go_app c (a b : string) : ∀ i best,
  rfind_go c i best (a +:+ b)
  = rfind_go c (i + Z.of_nat (String.length a)) (rfind_go c i best a) b.
Proof.
  induction a as [|x a IH]; intros i best.
  - rewrite app_empty_l. simpl. by rewrite Z.add_0_r.
  - rewrite app_cons. cbn [rfind_go String.length]. rewrite IH.
    f_equal. lia.
Qed.

Lemma rfind_go_absent c s : ∀ i best, absent c s → rfind_go c i best s = best.
Proof.
  unfold absent. induction s as [|x s IH]; intros i best; [done|].
  cbn [all_chars rfind_go]. intros [Hx Hs]%andb_prop.
  apply bool_decide_eq_true in Hx. rewrite decide_False by done. by apply IH.
Qed.

Lemma rfind_absent c s : absent c s → rfind c s = (-1)%Z.
Proof. apply rfind_go_absent. Qed.

Lemma rfind_last c (a b : string) :
  absent c b → rfind c (a +:+ String c b) = Z.of_nat (String.length a).
Proof.
  intros Hb. unfold rfind. rewrite rfind_go_app. cbn [rfind_go].
  rewrite decide_True by done. rewrite rfind_go_absent by done. lia.
Qed.

Lemma str_drop_app (a b : string) : str_drop (String.length a) (a +:+ b) = b.
Proof. induction a as [|x a IH]; [by destruct b|]. by rewrite app_cons. Qed.

Lemma str_take_app (a b : string) : str_take (String.length a) (a +:+ b) = a.
Proof.
  induction a as [|x a IH]; [by destruct b|].
  rewrite app_cons. cbn [String.length str_take]. by rewrite IH.
Qed.

Lemma absent_app c (a b : string) : absent c (a +:+ b) ↔ absent c a ∧ absent c b.
Proof. unfold absent. by rewrite all_chars_app, andb_true_iff. Qed.

(** The base name of a path is what follows its last slash. *)
Lemma basename_after_slash (dir name : string) :
  absent "/" name → basename (dir +:+ String "/" name) = name.
Proof.
  intros Hname. unfold basename. rewrite rfind_last by done.
  replace (Z.to_nat (Z.of_nat (String.length dir) + 1))
    with (String.length (dir +:+ "/")).
  - change (String "/" name) with ("/" +:+ name).
    rewrite <- app_assoc_string. apply str_drop_app.
  - rewrite length_app. simpl. lia.
Qed.

Lemma basename_plain (name : string) : absent "/" name → basename name = name.
Proof.
  intros Hname. unfold basename. rewrite rfind_absent by done. by destruct name.
Qed.

(** The root of a file name is what comes before its last dot, unless
    only dots come before it. *)
Lemma splitext_root_name (stem ext : string) :
  absent "/" stem → absent "/" ext → absent "." ext →
  all_chars (λ c, bool_decide (c = "."%char)) stem = false →
  splitext_root (stem +:+ String "." ext) = stem.
Proof.
  intros Hstem Hext Hdot Hdots. unfold splitext_root.
  rewrite rfind_absent, rfind_last by (try apply absent_app; done).
  replace (-1 <? Z.of_nat (String.length stem))%Z with true
    by (symmetry; apply Z.ltb_lt; lia).
  replace (Z.to_nat (-1 + 1)) with 0 by lia.
  replace (Z.to_nat (Z.of_nat (String.length stem) - (-1 + 1)))
    with (String.length stem) by lia.
  rewrite Nat2Z.id.
  assert (str_drop 0 (stem +:+ String "." ext) = stem +:+ String "." ext) as ->
    by (by destruct (stem +:+ String "." ext)).
  rewrite str_take_app, Hdots. done.
Qed.

Lemma rev_app_acc (s acc : string) :
  String.rev_app s acc = String.rev_app s "" +:+ acc.
Proof.
  revert acc. induction s as [|c s IH]; intros acc; [done|].
  cbn [String.rev_app]. rewrite (IH (String c acc)), (IH (String c "")).
  by rewrite app_assoc_string.
Qed.

Lemma rev_app (a b : string) : String.rev (a +:+ b) = String.rev b +:+ String.rev a.
Proof.
  unfold String.rev. revert b. induction a as [|c a IH]; intros b.
  - by rewrite app_empty_l, app_empty_r.
  - rewrite app_cons. cbn [String.rev_app].
    rewrite (rev_app_acc (a +:+ b)), IH, (rev_app_acc a (String c "")).
    by rewrite app_assoc_string.
Qed.

Lemma startswith_app (a b : string) : startswith (a +:+ b) a = true.
Proof.
  induction a as [|c a IH]; [apply startswith_empty|].
  rewrite app_cons, startswith_cons, IH. by rewrite bool_decide_eq_true_2.
Qed.

Lemma endswith_app (a b : string) : endswith (a +:+ b) b = true.
Proof. unfold endswith. rewrite rev_app. apply startswith_app. Qed.

Lemma main_setup_valid W D args :
  valid_arguments W args →
  main_setup W D args =
    if path_given (Args.output_dir args) then
      let output_dir := default "" (Args.output_dir args) in
      if negb (isdir D output_dir) then
        match makedirs D output_dir with
        | Some e => inl (StopCannotCreate output_dir e)
        | None => inr output_dir
        end
      else inr output_dir
    else
      let output_dir :=
        path_join (path_join (getcwd D) "results")
          (splitext_root (basename (Args.pdf_path args))) in
      match makedirs D output_dir with
      | Some e => inl (StopRaised e)
      | None => inr output_dir
      end.
Proof.
  intros (Hfile & Hext & Htop). unfold main_setup. rewrite Hfile, Hext.
  cbn [negb orb].
  replace (Args.num_top_words args <=? 0)%Z with false
    by (symmetry; apply Z.leb_gt; lia).
  done.
Qed.

Lemma main_setup_inr W D args d :
  main_setup W D args = inr d → valid_arguments W args.
Proof.
  unfold main_setup, valid_arguments.
  destruct (isfile W (Args.pdf_path args)); [|done].
  destruct (endswith (lower (Args.pdf_path args)) ".pdf"); [|done].
  cbn [negb orb].
  destruct (Args.num_top_words args <=? 0)%Z eqn:Htop; [done|].
  apply Z.leb_gt in Htop. done.
Qed.

End SetupFacts.

(** X20. The arguments are checked before anything is loaded or read,
    the PDF path first: a path that is not a file, or whose lower-case
    form does not end in ".pdf", stops the run whatever the other
    arguments are; with a good path, a [top_n] of zero or less stops it. *)
Theorem invalid_arguments_stop (W : world) (D : directories) (args : Args.t) :
  (isfile W (Args.pdf_path args) = false
   ∨ endswith (lower (Args.pdf_path args)) ".pdf" = false →
   main_from_args W D args = inl StopInvalidPdf)
  ∧ (isfile W (Args.pdf_path args) = true →
     endswith (lower (Args.pdf_path args)) ".pdf" = true →
     (Args.num_top_words args ≤ 0)%Z →
     main_from_args W D args = inl StopInvalidTopN).
Proof.
  unfold main_from_args, main_setup. split.
  - intros [-> | ->]; [done|]. by rewrite orb_true_r.
  - intros -> -> Htop. cbn [negb orb].
    by replace (Args.num_top_words args <=? 0)%Z with true
      by (symmetry; apply Z.leb_le; lia).
Qed.

Lemma invalid_arguments_stop_witness :
  main_from_args Toy.W toy_directories
    {| Args.pdf_path := "notes.txt"; Args.num_top_words := 0;
       Args.known_words_file := None; Args.output_dir := None |}
  = inl StopInvalidPdf
  ∧ main_from_args toy_world_pdf toy_directories
      {| Args.pdf_path := "cats.pdf"; Args.num_top_words := 0;
         Args.known_words_file := None; Args.output_dir := None |}
    = inl StopInvalidTopN.
Proof.
  split.
  - apply (invalid_arguments_stop Toy.W toy_directories). left. reflexivity.
  - apply (invalid_arguments_stop toy_world_pdf toy_directories);
      [reflexivity|reflexivity|]. simpl. lia.
Defined.

(** X21. The pipeline is run only with arguments that passed the checks:
    the PDF path names a file and ends in ".pdf", the cutoff handed on is
    at least one, and the output directory existed or was created. *)
Theorem pipeline_runs_checked (W : world) (D : directories) (args : Args.t)
    (run : io unit) :
  main_from_args W D args = inr run →
  valid_arguments W args
  ∧ 1 ≤ Z.to_nat (Args.num_top_words args)
  ∧ ∃ output_dir,
      run = main W (Args.pdf_path args) (Z.to_nat (Args.num_top_words args))
              (Args.known_words_file args) output_dir
      ∧ (isdir D output_dir = true ∨ makedirs D output_dir = None).
Proof.
  unfold main_from_args. intros Hrun.
  destruct (main_setup W D args) as [s|d] eqn:Hsetup; [done|].
  injection Hrun as <-.
  pose proof (main_setup_inr W D args d Hsetup) as Hvalid.
  split; [done|]. split; [destruct Hvalid as (_ & _ & ?); lia|].
  exists d. split; [done|].
  rewrite (main_setup_valid W D args Hvalid) in Hsetup. cbn zeta in Hsetup.
  destruct (path_given (Args.output_dir args)).
  - destruct (isdir D (default "" (Args.output_dir args))) eqn:Hdir;
      cbn [negb] in Hsetup.
    + injection Hsetup as <-. by left.
    + destruct (makedirs D (default "" (Args.output_dir args))) eqn:Hmk; [done|].
      injection Hsetup as <-. by right.
  - destruct (makedirs D _) eqn:Hmk; [done|]. injection Hsetup as <-. by right.
Qed.

Lemma pipeline_runs_checked_witness :
  valid_arguments toy_world_pdf
    {| Args.pdf_path := "cats.pdf"; Args.num_top_words := 3;
       Args.known_words_file := None; Args.output_dir := Some "out" |}.
Proof.
  destruct (pipeline_runs_checked toy_world_pdf toy_directories
              {| Args.pdf_path := "cats.pdf"; Args.num_top_words := 3;
                 Args.known_words_file := None; Args.output_dir := Some "out" |}
              (main toy_world_pdf "cats.pdf" 3 None "out")) as [Hvalid _];
    [reflexivity|exact Hvalid].
Defined.

(** X22. With an output directory given and arguments that pass the
    checks: if the directory exists it is used as it is and nothing is
    created; if it does not exist it is created, and a failure to create
    it is caught and stops the run with a message and [sys.exit(1)]. *)
Theorem output_directory_given (W : world) (D : directories) (args : Args.t)
    (d : string) :
  valid_arguments W args →
  Args.output_dir args = Some d → d ≠ "" →
  main_setup W D args =
    if isdir D d then inr d
    else match makedirs D d with
         | Some e => inl (StopCannotCreate d e)
         | None => inr d
         end.
Proof.
  intros Hvalid Hdir Hd. rewrite (main_setup_valid W D args Hvalid), Hdir.
  apply truthy_nonempty in Hd. simpl. rewrite Hd.
  by destruct (isdir D d).
Qed.

Lemma output_directory_given_witness :
  main_setup toy_world_pdf toy_directories
    {| Args.pdf_path := "cats.pdf"; Args.num_top_words := 3;
       Args.known_words_file := None; Args.output_dir := Some "/proc/out" |}
  = inl (StopCannotCreate "/proc/out" OSError).
Proof.
  apply (output_directory_given toy_world_pdf toy_directories
           {| Args.pdf_path := "cats.pdf"; Args.num_top_words := 3;
              Args.known_words_file := None; Args.output_dir := Some "/proc/out" |}
           "/proc/out").
  - split_and!; [reflexivity|reflexivity|reflexivity].
  - reflexivity.
  - discriminate.
Defined.

(** X23. Without an output directory (or with an empty one), the results
    go to "results/<name>" under the working directory, where <name> is
    the file name of the PDF without its directories and without its
    extension, dots inside the name being kept; when creating that
    directory fails, the exception is not caught. *)
Theorem default_output_directory (W : world) (D : directories) (args : Args.t)
    (dir stem ext : string) :
  valid_arguments W args →
  path_given (Args.output_dir args) = false →
  Args.pdf_path args = stem +:+ String "." ext
  ∨ Args.pdf_path args = dir +:+ String "/" (stem +:+ String "." ext) →
  absent "/" stem → absent "/" ext → absent "." ext →
  all_chars (λ c, bool_decide (c = "."%char)) stem = false →
  main_setup W D args =
    match makedirs D (path_join (path_join (getcwd D) "results") stem) with
    | Some e => inl (StopRaised e)
    | None => inr (path_join (path_join (getcwd D) "results") stem)
    end.
Proof.
  intros Hvalid Hgiven Hpath Hstem Hext Hdot Hdots.
  rewrite (main_setup_valid W D args Hvalid), Hgiven. cbn zeta.
  assert (absent "/" (stem +:+ String "." ext)) as Hname.
  { apply absent_app. split; [done|]. unfold absent in *. simpl. exact Hext. }
  assert (basename (Args.pdf_path args) = stem +:+ String "." ext) as ->.
  { destruct Hpath as [-> | ->].
    - by apply basename_plain.
    - by apply basename_after_slash. }
  by rewrite splitext_root_name.
Qed.

Lemma default_output_directory_witness :
  main_setup toy_world_pdf toy_directories
    {| Args.pdf_path := "docs/Report.v2.PDF"; Args.num_top_words := 3;
       Args.known_words_file := None; Args.output_dir := None |}
  = inr "/home/user/results/Report.v2".
Proof.
  apply (default_output_directory toy_world_pdf toy_directories
           {| Args.pdf_path := "docs/Report.v2.PDF"; Args.num_top_words := 3;
              Args.known_words_file := None; Args.output_dir := None |}
           "docs" "Report.v2" "PDF").
  - split_and!; [reflexivity|reflexivity|reflexivity].
  - reflexivity.
  - right. reflexivity.
  - reflexivity.
  - reflexivity.
  - reflexivity.
  - reflexivity.
Defined.

(** X24. The extension of the PDF path is matched without regard to
    case: a path that names a file and whose extension is ".pdf" in any
    mix of cases passes the first check. *)
Theorem pdf_extension_any_case (W : world) (D : directories) (args : Args.t)
    (stem ext : string) :
  Args.pdf_path args = stem +:+ ext →
  lower ext = ".pdf" →
  isfile W (Args.pdf_path args) = true →
  main_setup W D args ≠ inl StopInvalidPdf
  ∧ ((0 < Args.num_top_words args)%Z → valid_arguments W args).
Proof.
  intros Hpath Hext Hfile.
  assert (endswith (lower (Args.pdf_path args)) ".pdf" = true) as Hends.
  { rewrite Hpath, lower_app, Hext. apply endswith_app. }
  split; [|done].
  unfold main_setup. rewrite Hfile, Hends. cbn [negb orb].
  destruct (Args.num_top_words args <=? 0)%Z; [done|].
  destruct (path_given (Args.output_dir args)).
  - cbn zeta. destruct (negb _); [|done]. by destruct (makedirs D _).
  - cbn zeta. by destruct (makedirs D _).
Qed.

Lemma pdf_extension_any_case_witness :
  main_setup toy_world_pdf toy_directories
    {| Args.pdf_path := "docs/Report.v2.PDF"; Args.num_top_words := 3;
       Args.known_words_file := None; Args.output_dir := None |}
  ≠ inl StopInvalidPdf.
Proof.
  apply (pdf_extension_any_case toy_world_pdf toy_directories
           {| Args.pdf_path := "docs/Report.v2.PDF"; Args.num_top_words := 3;
              Args.known_words_file := None; Args.output_dir := None |}
           "docs/Report.v2" ".PDF"); reflexivity.
Defined.
